(** * pengyhash: the one-shot 64-bit hash and the incremental 256-bit hash

    A shallow embedding of the Go package [pengyhash] and of the properties
    its specification states about it.

    The repository carries two listings of the incremental engine:
    - [src/pengyhash.go]: the engine keeps the words of the last absorbed
      block in [h.b] and the pending bytes in [h.tmp] (module [Cached]);
    - the listing in [src/README.md]: the engine keeps one 32-byte [h.block]
      and adds [MarshalBinary] / [UnmarshalBinary] (module [Blocked]).
    The one-shot function [Pengyhash] is the same text in both.

    Conventions: a [uint64] is a [Z] in [0, 2^64) and every operation that
    can overflow writes its wrap-around out; a [byte] is [Byte.byte]; a slice
    is a [list byte]; a run-time panic (index or slice bound out of range) is
    [None]. *)

From Stdlib Require Import String.
From Stdlib Require Import ZArith List Lia Bool.
From coqutil Require Import Byte Word.LittleEndianList Z.bitblast.
Import ListNotations.
Local Open Scope Z_scope.

(** ** Partial computations: [None] is a Go panic *)

Notation "x <- e ;; k" := (match e with Some x => k | None => None end)
  (at level 61, e at next level, right associativity).
Notation "' p <- e ;; k" := (match e with Some p => k | None => None end)
  (at level 61, p pattern, e at next level, right associativity).

(** ** 64-bit unsigned arithmetic ([uint64], [math/bits]) *)

Definition u64 (x : Z) : Z := x mod 2 ^ 64.

Definition add64 (x y : Z) : Z := u64 (x + y).

Definition shl64 (x k : Z) : Z := u64 (Z.shiftl x k).

(** [bits.RotateLeft64(x, k)]: [s := uint(k) & 63; return x<<s | x>>(64-s)]. *)
Definition RotateLeft64 (x k : Z) : Z :=
  let s := Z.land k 63 in
  Z.lor (shl64 x s) (Z.shiftr x (64 - s)).

(** The length of a slice, as Go's [len]. *)
Definition len {A : Type} (l : list A) : Z := Z.of_nat (length l).

(** ** Fixed arrays of four words ([[4]uint64]) *)

Record u64x4 : Type := Arr4 { e0 : Z; e1 : Z; e2 : Z; e3 : Z }.

Definition idx (a : u64x4) (i : nat) : Z :=
  match i with
  | 0%nat => e0 a
  | 1%nat => e1 a
  | 2%nat => e2 a
  | _ => e3 a
  end.

Definition upd (a : u64x4) (i : nat) (v : Z) : u64x4 :=
  match i with
  | 0%nat => Arr4 v (e1 a) (e2 a) (e3 a)
  | 1%nat => Arr4 (e0 a) v (e2 a) (e3 a)
  | 2%nat => Arr4 (e0 a) (e1 a) v (e3 a)
  | _ => Arr4 (e0 a) (e1 a) (e2 a) v
  end.

Notation "a '.[' i ']'" := (idx a i%nat) (at level 1, format "a .[ i ]").
Notation "a '.[' i ':=' v ']'" := (upd a i%nat v)
  (at level 1, format "a .[ i  :=  v ]").

Definition zero4 : u64x4 := Arr4 0 0 0 0.

(** ** Slices and [copy] *)

(** [b[i:]]: panics unless [0 <= i <= len(b)]. *)
Definition slice_from (b : list byte) (i : Z) : option (list byte) :=
  if (0 <=? i) && (i <=? len b) then Some (skipn (Z.to_nat i) b) else None.

(** [b[:j]]: panics unless [0 <= j <= len(b)]. *)
Definition slice_to (b : list byte) (j : Z) : option (list byte) :=
  if (0 <=? j) && (j <=? len b) then Some (firstn (Z.to_nat j) b) else None.

(** [copy(dst, src)]: the first [min(len(dst), len(src))] bytes of [src]
    replace those of [dst]; the count is returned. *)
Definition copy (dst src : list byte) : list byte * Z :=
  (firstn (length dst) src ++ skipn (length src) dst,
   Z.min (len dst) (len src)).

(** An operation on the sub-slice [arr[i:]] writes through to [arr]. *)
Definition at_from (arr : list byte) (i : Z)
    (f : list byte -> option (list byte)) : option (list byte) :=
  d <- slice_from arr i ;;
  d' <- f d ;;
  Some (firstn (Z.to_nat i) arr ++ d').

(** ** [encoding/binary], [LittleEndian] *)

Module LittleEndian.

(** [Uint64]: [_ = b[7]], then the eight bytes or-ed at their shifts. *)
Definition Uint64 (b : list byte) : option Z :=
  match b with
  | b0 :: b1 :: b2 :: b3 :: b4 :: b5 :: b6 :: b7 :: _ =>
      Some (Z.lor (Z.lor (Z.lor (Z.lor (Z.lor (Z.lor (Z.lor
              (byte.unsigned b0)
              (shl64 (byte.unsigned b1) 8))
              (shl64 (byte.unsigned b2) 16))
              (shl64 (byte.unsigned b3) 24))
              (shl64 (byte.unsigned b4) 32))
              (shl64 (byte.unsigned b5) 40))
              (shl64 (byte.unsigned b6) 48))
              (shl64 (byte.unsigned b7) 56))
  | _ => None
  end.

(** [PutUint64]: [_ = b[7]], then [b[i] = byte(v >> (8*i))]. *)
Definition PutUint64 (v : Z) (b : list byte) : option (list byte) :=
  match b with
  | _ :: _ :: _ :: _ :: _ :: _ :: _ :: _ :: rest =>
      Some (byte.of_Z v
            :: byte.of_Z (Z.shiftr v 8)
            :: byte.of_Z (Z.shiftr v 16)
            :: byte.of_Z (Z.shiftr v 24)
            :: byte.of_Z (Z.shiftr v 32)
            :: byte.of_Z (Z.shiftr v 40)
            :: byte.of_Z (Z.shiftr v 48)
            :: byte.of_Z (Z.shiftr v 56)
            :: rest)
  | _ => None
  end.

End LittleEndian.
Import LittleEndian.

(** [binary.LittleEndian.Uint64(buf[i:])]. *)
Definition Uint64_at (buf : list byte) (i : Z) : option Z :=
  d <- slice_from buf i ;; Uint64 d.

(** The four statements [b[k] = binary.LittleEndian.Uint64(buf[8k:])]. *)
Definition load4 (buf : list byte) : option u64x4 :=
  b0 <- Uint64_at buf 0 ;;
  b1 <- Uint64_at buf 8 ;;
  b2 <- Uint64_at buf 16 ;;
  b3 <- Uint64_at buf 24 ;;
  Some (Arr4 b0 b1 b2 b3).

(** The four statements [binary.LittleEndian.PutUint64(tmp[8k:], b[k])]. *)
Definition store4 (b : u64x4) (tmp : list byte) : option (list byte) :=
  tmp <- at_from tmp 0 (PutUint64 b.[0]) ;;
  tmp <- at_from tmp 8 (PutUint64 b.[1]) ;;
  tmp <- at_from tmp 16 (PutUint64 b.[2]) ;;
  at_from tmp 24 (PutUint64 b.[3]).

(** A zero-valued [[32]byte]. *)
Definition zero32 : list byte := repeat Byte.x00 32.

(** ** The one-shot hash, [Pengyhash] *)

(** Lines 139-146: the body of the absorbing loop, after the four loads. *)
Definition Pengyhash_absorb (b s : u64x4) : u64x4 :=
  let s := s.[0 := add64 s.[0] (add64 s.[1] b.[3])] in
  let s := s.[1 := add64 s.[0] (RotateLeft64 s.[1] 14)] in
  let s := s.[2 := add64 s.[2] (add64 s.[3] b.[2])] in
  let s := s.[3 := add64 s.[2] (RotateLeft64 s.[3] 23)] in
  let s := s.[0 := add64 s.[0] (add64 s.[3] b.[1])] in
  let s := s.[3 := Z.lxor s.[0] (RotateLeft64 s.[3] 16)] in
  let s := s.[2 := add64 s.[2] (add64 s.[1] b.[0])] in
  let s := s.[1 := Z.lxor s.[2] (RotateLeft64 s.[1] 40)] in
  s.

(** Lines 161-168: the body of the final loop; [seed] is the [uint32]
    argument and [uint64(seed)] its zero extension. *)
Definition Pengyhash_final (b : u64x4) (seed : Z) (s : u64x4) : u64x4 :=
  let s := s.[0 := add64 s.[0] (add64 s.[1] b.[3])] in
  let s := s.[1 := add64 (add64 s.[0] (RotateLeft64 s.[1] 14)) (u64 seed)] in
  let s := s.[2 := add64 s.[2] (add64 s.[3] b.[2])] in
  let s := s.[3 := add64 s.[2] (RotateLeft64 s.[3] 23)] in
  let s := s.[0 := add64 s.[0] (add64 s.[3] b.[1])] in
  let s := s.[3 := Z.lxor s.[0] (RotateLeft64 s.[3] 16)] in
  let s := s.[2 := add64 s.[2] (add64 s.[1] b.[0])] in
  let s := s.[1 := Z.lxor s.[2] (RotateLeft64 s.[1] 40)] in
  s.

(** [for ; len(buf) >= 32; buf = buf[32:] { ... }] of [Pengyhash]; the loop
    runs out of [fuel] (and yields [None]) only if given less than one unit
    per iteration plus one for the exit test. *)
Fixpoint Pengyhash_loop (fuel : nat) (buf : list byte) (b s : u64x4)
    : option (list byte * u64x4 * u64x4) :=
  match fuel with
  | O => None
  | S fuel =>
      if 32 <=? len buf then
        b <- load4 buf ;;
        let s := Pengyhash_absorb b s in
        buf <- slice_from buf 32 ;;
        Pengyhash_loop fuel buf b s
      else Some (buf, b, s)
  end.

Definition Pengyhash (buf : list byte) (seed : Z) : option Z :=
  let b := zero4 in
  let s := Arr4 0 0 0 (u64 (len buf)) in
  '(buf, b, s) <- Pengyhash_loop (S (length buf)) buf b s ;;
  tmp <- store4 b zero32 ;;
  let tmp := fst (copy tmp buf) in
  b <- load4 tmp ;;
  let s := Nat.iter 6 (Pengyhash_final b seed) s in
  Some (add64 (add64 (add64 s.[0] s.[1]) s.[2]) s.[3]).

(** Go's [error] results: [nil] is [None], [errors.New(msg)] is [Some msg]. *)
Definition error : Type := option string.

Definition errors_New (msg : string) : error := Some msg.

(** [copy(s[:], h.s[:])] between two [[4]uint64]: all four words. *)
Definition copy4 (dst src : u64x4) : u64x4 :=
  dst.[0 := src.[0]].[1 := src.[1]].[2 := src.[2]].[3 := src.[3]].

(** [b[i]]: panics unless [0 <= i < len(b)]. *)
Definition index (b : list byte) (i : Z) : option byte :=
  if (0 <=? i) && (i <? len b) then nth_error b (Z.to_nat i) else None.

(** [b[i] = v]: panics unless [0 <= i < len(b)]. *)
Definition set_index (b : list byte) (i : Z) (v : byte) : option (list byte) :=
  if (0 <=? i) && (i <? len b)
  then Some (firstn (Z.to_nat i) b ++ v :: skipn (S (Z.to_nat i)) b)
  else None.

(** ** Ranges and the byte image of a block *)

Definition in64 (x : Z) : Prop := 0 <= x < 2 ^ 64.

Definition in64x4 (a : u64x4) : Prop :=
  in64 a.[0] /\ in64 a.[1] /\ in64 a.[2] /\ in64 a.[3].

(** The four little-endian words at the head of a buffer. *)
Definition words (buf : list byte) : u64x4 :=
  Arr4 (le_combine (firstn 8 buf))
       (le_combine (firstn 8 (skipn 8 buf)))
       (le_combine (firstn 8 (skipn 16 buf)))
       (le_combine (firstn 8 (skipn 24 buf))).

(** The 32-byte little-endian image of four words. *)
Definition bytes (a : u64x4) : list byte :=
  le_split 8 a.[0] ++ le_split 8 a.[1] ++ le_split 8 a.[2] ++ le_split 8 a.[3].

(** ** The mixing core and the one-shot engine, as the specification words them *)

(** Section 4.1: the eight steps; [extra64] is present only in finalization. *)
Definition mix (extra64 : option Z) (S B : u64x4) : u64x4 :=
  let '(Arr4 S0 S1 S2 S3) := S in
  let '(Arr4 B0 B1 B2 B3) := B in
  let S0 := add64 S0 (add64 S1 B3) in
  let S1 := match extra64 with
            | None => add64 S0 (RotateLeft64 S1 14)
            | Some x => add64 (add64 S0 (RotateLeft64 S1 14)) x
            end in
  let S2 := add64 S2 (add64 S3 B2) in
  let S3 := add64 S2 (RotateLeft64 S3 23) in
  let S0 := add64 S0 (add64 S3 B1) in
  let S3 := Z.lxor S0 (RotateLeft64 S3 16) in
  let S2 := add64 S2 (add64 S1 B0) in
  let S1 := Z.lxor S2 (RotateLeft64 S1 40) in
  Arr4 S0 S1 S2 S3.

(** Six finalization rounds against a constant block [B]. *)
Definition finalize (extra64 : Z) (B S : u64x4) : u64x4 :=
  Nat.iter 6 (fun S => mix (Some extra64) S B) S.

(** The [i]-th complete, non-overlapping 32-byte block of a buffer. *)
Definition block_at (buffer : list byte) (i : nat) : list byte :=
  firstn 32 (skipn (32 * i) buffer).

(** The complete blocks of a buffer, in order. *)
Definition complete_blocks (buffer : list byte) : list (list byte) :=
  map (block_at buffer) (seq 0 (length buffer / 32)).

(** The state after absorbing every complete block (section 4.2, steps 1-2). *)
Definition absorbed (buffer : list byte) : u64x4 :=
  fold_left (fun S blk => mix None S (words blk)) (complete_blocks buffer)
            (Arr4 0 0 0 (len buffer)).

(** The virtual final block (section 4.2, step 3): the trailing [r] bytes
    laid over the byte image of the last absorbed block's words. *)
Definition virtual_block (buffer : list byte) : list byte :=
  let r := (length buffer mod 32)%nat in
  let image := bytes (last (map words (complete_blocks buffer)) zero4) in
  skipn (length buffer - r) buffer ++ skipn r image.

(** Section 4.2, steps 1-5. *)
Definition Digest_spec (buffer : list byte) (seed32 : Z) : Z :=
  let S := finalize seed32 (words (virtual_block buffer)) (absorbed buffer) in
  add64 (add64 (add64 S.[0] S.[1]) S.[2]) S.[3].

(** ** The incremental engine of [src/pengyhash.go] *)

Module Cached.

Record hash256 : Type := Hash256 {
  b : u64x4;
  s : u64x4;
  seed : Z;
  total : Z;
  tmp : list byte;
  n : Z
}.

Definition set_b (h : hash256) (v : u64x4) : hash256 :=
  Hash256 v (s h) (seed h) (total h) (tmp h) (n h).
Definition set_s (h : hash256) (v : u64x4) : hash256 :=
  Hash256 (b h) v (seed h) (total h) (tmp h) (n h).
Definition set_seed (h : hash256) (v : Z) : hash256 :=
  Hash256 (b h) (s h) v (total h) (tmp h) (n h).
Definition set_total (h : hash256) (v : Z) : hash256 :=
  Hash256 (b h) (s h) (seed h) v (tmp h) (n h).
Definition set_tmp (h : hash256) (v : list byte) : hash256 :=
  Hash256 (b h) (s h) (seed h) (total h) v (n h).
Definition set_n (h : hash256) (v : Z) : hash256 :=
  Hash256 (b h) (s h) (seed h) (total h) (tmp h) v.

(** [var h hash256]. *)
Definition zero : hash256 := Hash256 zero4 zero4 0 0 zero32 0.

Definition New (seed : Z) : hash256 :=
  let h := zero in
  let h := set_seed h seed in
  let h := set_s h (s h).[3 := seed] in
  h.

Definition Reset (h : hash256) : hash256 :=
  let h := set_b h (b h).[0 := 0] in
  let h := set_b h (b h).[1 := 0] in
  let h := set_b h (b h).[2 := 0] in
  let h := set_b h (b h).[3 := 0] in
  let h := set_s h (s h).[0 := 0] in
  let h := set_s h (s h).[1 := 0] in
  let h := set_s h (s h).[2 := 0] in
  let h := set_s h (s h).[3 := seed h] in
  let h := set_n h 0 in
  let h := set_total h 0 in
  h.

(** Lines 62-69 of [write32]: the eight updates of [h.s]. *)
Definition write32_mix (h : hash256) : hash256 :=
  let h := set_s h (s h).[0 := add64 (s h).[0] (add64 (s h).[1] (b h).[3])] in
  let h := set_s h (s h).[1 := add64 (s h).[0] (RotateLeft64 (s h).[1] 14)] in
  let h := set_s h (s h).[2 := add64 (s h).[2] (add64 (s h).[3] (b h).[2])] in
  let h := set_s h (s h).[3 := add64 (s h).[2] (RotateLeft64 (s h).[3] 23)] in
  let h := set_s h (s h).[0 := add64 (s h).[0] (add64 (s h).[3] (b h).[1])] in
  let h := set_s h (s h).[3 := Z.lxor (s h).[0] (RotateLeft64 (s h).[3] 16)] in
  let h := set_s h (s h).[2 := add64 (s h).[2] (add64 (s h).[1] (b h).[0])] in
  let h := set_s h (s h).[1 := Z.lxor (s h).[2] (RotateLeft64 (s h).[1] 40)] in
  h.

(** Lines 58-61 load [h.b] from the buffer, then the eight updates. *)
Definition write32 (buf : list byte) (h : hash256) : option hash256 :=
  b0 <- Uint64_at buf 0 ;;
  let h := set_b h (b h).[0 := b0] in
  b1 <- Uint64_at buf 8 ;;
  let h := set_b h (b h).[1 := b1] in
  b2 <- Uint64_at buf 16 ;;
  let h := set_b h (b h).[2 := b2] in
  b3 <- Uint64_at buf 24 ;;
  let h := set_b h (b h).[3 := b3] in
  Some (write32_mix h).

(** [for ; len(buf) >= 32; buf = buf[32:] { h.write32(buf) }]. *)
Fixpoint Write_loop (fuel : nat) (buf : list byte) (h : hash256)
    : option (list byte * hash256) :=
  match fuel with
  | O => None
  | S fuel =>
      if 32 <=? len buf then
        h <- write32 buf h ;;
        buf <- slice_from buf 32 ;;
        Write_loop fuel buf h
      else Some (buf, h)
  end.

(** [if h.n != 0 { ... }]: top up the pending bytes. *)
Definition Write_fill (buf : list byte) (h : hash256)
    : option (list byte * hash256) :=
  if negb (n h =? 0) then
    dst <- slice_from (tmp h) (n h) ;;
    let '(dst, n0) := copy dst buf in
    let h := set_tmp h (firstn (Z.to_nat (n h)) (tmp h) ++ dst) in
    let h := set_n h (n h + n0) in
    buf <- slice_from buf n0 ;;
    if n h =? 32 then
      h <- write32 (tmp h) h ;;
      let h := set_n h 0 in
      Some (buf, h)
    else Some (buf, h)
  else Some (buf, h).

Definition Write (buf : list byte) (h : hash256) : option (Z * error * hash256) :=
  let total0 := len buf in
  let h := set_total h (add64 (total h) (u64 total0)) in
  '(buf, h) <- Write_fill buf h ;;
  '(buf, h) <- Write_loop (S (length buf)) buf h ;;
  let '(tmp', n0) := copy (tmp h) buf in
  let h := set_n (set_tmp h tmp') n0 in
  Some (total0, None, h).

(** Lines 111-118: the body of the loop of [Sum]. *)
Definition Sum_round (b : u64x4) (total : Z) (s : u64x4) : u64x4 :=
  let s := s.[0 := add64 s.[0] (add64 s.[1] b.[3])] in
  let s := s.[1 := add64 (add64 s.[0] (RotateLeft64 s.[1] 14)) total] in
  let s := s.[2 := add64 s.[2] (add64 s.[3] b.[2])] in
  let s := s.[3 := add64 s.[2] (RotateLeft64 s.[3] 23)] in
  let s := s.[0 := add64 s.[0] (add64 s.[3] b.[1])] in
  let s := s.[3 := Z.lxor s.[0] (RotateLeft64 s.[3] 16)] in
  let s := s.[2 := add64 s.[2] (add64 s.[1] b.[0])] in
  let s := s.[1 := Z.lxor s.[2] (RotateLeft64 s.[1] 40)] in
  s.

(** [Sum] has a pointer receiver; the engine it leaves is returned next to
    the slice. *)
Definition Sum (p : list byte) (h : hash256) : option (list byte * hash256) :=
  let tmp0 := zero32 in
  tmp0 <- store4 (b h) tmp0 ;;
  src <- slice_to (tmp h) (n h) ;;
  let tmp0 := fst (copy tmp0 src) in
  b0 <- load4 tmp0 ;;
  let s0 := copy4 zero4 (s h) in
  let s0 := Nat.iter 6 (Sum_round b0 (total h)) s0 in
  r <- store4 s0 zero32 ;;
  Some (p ++ r, h).

(** A run of [Write] calls, one per chunk. *)
Fixpoint feed (chunks : list (list byte)) (h : hash256) : option hash256 :=
  match chunks with
  | [] => Some h
  | c :: chunks => '(_, h) <- Write c h ;; feed chunks h
  end.

(** The chunks written in order to [h], then [Sum(nil)]. *)
Definition digest_of (h : hash256) (chunks : list (list byte)) : option (list byte) :=
  h <- feed chunks h ;;
  '(d, _) <- Sum [] h ;;
  Some d.

(** [New(seed)], the chunks written in order, then [Sum(nil)]. *)
Definition digest (seed : Z) (chunks : list (list byte)) : option (list byte) :=
  digest_of (New seed) chunks.

(** Closed form of [write32] on a buffer that holds a whole block. *)
Definition absorb (h : hash256) (blk : list byte) : hash256 :=
  set_s (set_b h (words blk)) (mix None (s h) (words blk)).

(** Closed form of [Write_fill] on an engine with fewer than 32 pending bytes. *)
Definition fill (buf : list byte) (h : hash256) : list byte * hash256 :=
  let k := Z.to_nat (n h) in
  if n h =? 0 then (buf, h)
  else if (length buf <? 32 - k)%nat then
    ([], set_n (set_tmp h (firstn k (tmp h) ++ buf ++ skipn (k + length buf) (tmp h)))
               (n h + len buf))
  else
    let blk := firstn k (tmp h) ++ firstn (32 - k) buf in
    (skipn (32 - k) buf, set_n (absorb (set_tmp h blk) blk) 0).

(** Closed form of [Write]. *)
Definition written (buf : list byte) (h : hash256) : hash256 :=
  let h := set_total h (add64 (total h) (u64 (len buf))) in
  let '(buf, h) := fill buf h in
  let k := (length buf / 32)%nat in
  let h := fold_left absorb (map (block_at buf) (seq 0 k)) h in
  let rem := skipn (32 * k) buf in
  set_n (set_tmp h (rem ++ skipn (length rem) (tmp h))) (len rem).

(** The virtual final block [Sum] builds: the pending bytes laid over the
    byte image of [h.b]. *)
Definition virtual (h : hash256) : list byte :=
  firstn (Z.to_nat (n h)) (tmp h) ++ skipn (Z.to_nat (n h)) (bytes (b h)).

(** Two engines that differ at most in the bytes of [tmp] past the pending
    length. *)
Definition similar (h1 h2 : hash256) : Prop :=
  b h1 = b h2 /\ s h1 = s h2 /\ seed h1 = seed h2 /\ total h1 = total h2 /\
  n h1 = n h2 /\
  firstn (Z.to_nat (n h1)) (tmp h1) = firstn (Z.to_nat (n h2)) (tmp h2).

(** The engines a client can hold. *)
Inductive reachable : hash256 -> Prop :=
| reach_New seed0 : in64 seed0 -> reachable (New seed0)
| reach_Write h buf r h' :
    reachable h -> Write buf h = Some (r, h') -> reachable h'
| reach_Sum h p d h' :
    reachable h -> Sum p h = Some (d, h') -> reachable h'
| reach_Reset h : reachable h -> reachable (Reset h).

Definition wf (h : hash256) : Prop :=
  in64x4 (b h) /\ in64x4 (s h) /\ in64 (seed h) /\ in64 (total h) /\
  length (tmp h) = 32%nat /\ 0 <= n h < 32.

End Cached.

(** ** The incremental engine listed in [src/README.md] *)

Module Blocked.

Record hash256 : Type := Hash256 {
  block : list byte;
  s : u64x4;
  seed : Z;
  total : Z;
  n : Z
}.

Definition set_block (h : hash256) (v : list byte) : hash256 :=
  Hash256 v (s h) (seed h) (total h) (n h).
Definition set_s (h : hash256) (v : u64x4) : hash256 :=
  Hash256 (block h) v (seed h) (total h) (n h).
Definition set_seed (h : hash256) (v : Z) : hash256 :=
  Hash256 (block h) (s h) v (total h) (n h).
Definition set_total (h : hash256) (v : Z) : hash256 :=
  Hash256 (block h) (s h) (seed h) v (n h).
Definition set_n (h : hash256) (v : Z) : hash256 :=
  Hash256 (block h) (s h) (seed h) (total h) v.

(** [hash256{}]. *)
Definition zero : hash256 := Hash256 zero32 zero4 0 0 0.

Definition New (seed : Z) : hash256 :=
  let h := zero in
  let h := set_seed h seed in
  let h := set_s h (s h).[3 := seed] in
  h.

(** [*h = hash256{}] comes first, [h.s[3] = h.seed] reads the new [h]. *)
Definition Reset (h : hash256) : hash256 :=
  let h := zero in
  let h := set_s h (s h).[3 := seed h] in
  h.

(** The eight updates of [h.s] in [write32], [b] being its local array. *)
Definition write32_mix (b : u64x4) (h : hash256) : hash256 :=
  let h := set_s h (s h).[0 := add64 (s h).[0] (add64 (s h).[1] b.[3])] in
  let h := set_s h (s h).[1 := add64 (s h).[0] (RotateLeft64 (s h).[1] 14)] in
  let h := set_s h (s h).[2 := add64 (s h).[2] (add64 (s h).[3] b.[2])] in
  let h := set_s h (s h).[3 := add64 (s h).[2] (RotateLeft64 (s h).[3] 23)] in
  let h := set_s h (s h).[0 := add64 (s h).[0] (add64 (s h).[3] b.[1])] in
  let h := set_s h (s h).[3 := Z.lxor (s h).[0] (RotateLeft64 (s h).[3] 16)] in
  let h := set_s h (s h).[2 := add64 (s h).[2] (add64 (s h).[1] b.[0])] in
  let h := set_s h (s h).[1 := Z.lxor (s h).[2] (RotateLeft64 (s h).[1] 40)] in
  h.

Definition write32 (buf : list byte) (h : hash256) : option hash256 :=
  b <- load4 buf ;;
  Some (write32_mix b h).

(** [for ; len(buf) >= 32; buf = buf[32:] { h.write32(buf); if len(buf) < 64
    { copy(h.block[:], buf[:]) } }]. *)
Fixpoint Write_loop (fuel : nat) (buf : list byte) (h : hash256)
    : option (list byte * hash256) :=
  match fuel with
  | O => None
  | S fuel =>
      if 32 <=? len buf then
        h <- write32 buf h ;;
        let h :=
          if len buf <? 64 then set_block h (fst (copy (block h) buf)) else h in
        buf <- slice_from buf 32 ;;
        Write_loop fuel buf h
      else Some (buf, h)
  end.

Definition Write_fill (buf : list byte) (h : hash256)
    : option (list byte * hash256) :=
  if negb (n h =? 0) then
    dst <- slice_from (block h) (n h) ;;
    let '(dst, n0) := copy dst buf in
    let h := set_block h (firstn (Z.to_nat (n h)) (block h) ++ dst) in
    let h := set_n h (n h + n0) in
    buf <- slice_from buf n0 ;;
    if n h =? 32 then
      h <- write32 (block h) h ;;
      let h := set_n h 0 in
      Some (buf, h)
    else Some (buf, h)
  else Some (buf, h).

Definition Write (buf : list byte) (h : hash256) : option (Z * error * hash256) :=
  let total0 := len buf in
  let h := set_total h (add64 (total h) (u64 total0)) in
  '(buf, h) <- Write_fill buf h ;;
  '(buf, h) <- Write_loop (S (length buf)) buf h ;;
  let '(block', n0) := copy (block h) buf in
  let h := set_n (set_block h block') n0 in
  Some (total0, None, h).

Definition Sum_round (b : u64x4) (total : Z) (s : u64x4) : u64x4 :=
  let s := s.[0 := add64 s.[0] (add64 s.[1] b.[3])] in
  let s := s.[1 := add64 (add64 s.[0] (RotateLeft64 s.[1] 14)) total] in
  let s := s.[2 := add64 s.[2] (add64 s.[3] b.[2])] in
  let s := s.[3 := add64 s.[2] (RotateLeft64 s.[3] 23)] in
  let s := s.[0 := add64 s.[0] (add64 s.[3] b.[1])] in
  let s := s.[3 := Z.lxor s.[0] (RotateLeft64 s.[3] 16)] in
  let s := s.[2 := add64 s.[2] (add64 s.[1] b.[0])] in
  let s := s.[1 := Z.lxor s.[2] (RotateLeft64 s.[1] 40)] in
  s.

Definition Sum (p : list byte) (h : hash256) : option (list byte * hash256) :=
  b0 <- load4 (block h) ;;
  let s0 := copy4 zero4 (s h) in
  let s0 := Nat.iter 6 (Sum_round b0 (total h)) s0 in
  r <- store4 s0 zero32 ;;
  Some (p ++ r, h).

(** [var buf [32 + 32 + 8 + 8 + 1]byte]. *)
Definition zero81 : list byte := repeat Byte.x00 81.

Definition MarshalBinary (h : hash256) : option (list byte * error * hash256) :=
  let buf := zero81 in
  buf <- at_from buf 0 (fun d => Some (fst (copy d (block h)))) ;;
  buf <- at_from buf 32 (PutUint64 (s h).[0]) ;;
  buf <- at_from buf 40 (PutUint64 (s h).[1]) ;;
  buf <- at_from buf 48 (PutUint64 (s h).[2]) ;;
  buf <- at_from buf 56 (PutUint64 (s h).[3]) ;;
  buf <- at_from buf 64 (PutUint64 (seed h)) ;;
  buf <- at_from buf 72 (PutUint64 (total h)) ;;
  buf <- set_index buf 80 (byte.of_Z (n h)) ;;
  Some (buf, None, h).

Definition UnmarshalBinary (data : list byte) (h : hash256)
    : option (error * hash256) :=
  if len data <? 32 + 32 + 8 + 8 + 1 then
    Some (errors_New "invalid length", h)
  else
    d80 <- index data 80 ;;
    if byte.unsigned d80 >=? 32 then
      Some (errors_New "invalid data", h)
    else
      src <- slice_from data 0 ;;
      let h := set_block h (fst (copy (block h) src)) in
      s0 <- Uint64_at data 32 ;;
      let h := set_s h (s h).[0 := s0] in
      s1 <- Uint64_at data 40 ;;
      let h := set_s h (s h).[1 := s1] in
      s2 <- Uint64_at data 48 ;;
      let h := set_s h (s h).[2 := s2] in
      s3 <- Uint64_at data 56 ;;
      let h := set_s h (s h).[3 := s3] in
      seed0 <- Uint64_at data 64 ;;
      let h := set_seed h seed0 in
      total0 <- Uint64_at data 72 ;;
      let h := set_total h total0 in
      d80 <- index data 80 ;;
      let h := set_n h (byte.unsigned d80) in
      Some (None, h).

Fixpoint feed (chunks : list (list byte)) (h : hash256) : option hash256 :=
  match chunks with
  | [] => Some h
  | c :: chunks => '(_, h) <- Write c h ;; feed chunks h
  end.

Definition digest_of (h : hash256) (chunks : list (list byte)) : option (list byte) :=
  h <- feed chunks h ;;
  '(d, _) <- Sum [] h ;;
  Some d.

Definition digest (seed : Z) (chunks : list (list byte)) : option (list byte) :=
  digest_of (New seed) chunks.

(** Closed form of [write32] on a buffer that holds a whole block. *)
Definition absorb (h : hash256) (blk : list byte) : hash256 :=
  set_s h (mix None (s h) (words blk)).

(** What a client does with an engine after a snapshot: more [Write]s and
    [Sum]s; the trace collects every result. *)
Inductive op : Type :=
| OpWrite (buf : list byte)
| OpSum (p : list byte).

Inductive result : Type :=
| ResWrite (count : Z) (err : error)
| ResSum (out : list byte).

Fixpoint run (ops : list op) (h : hash256) : option (list result * hash256) :=
  match ops with
  | [] => Some ([], h)
  | OpWrite buf :: ops =>
      '(c, e, h) <- Write buf h ;;
      '(rs, h) <- run ops h ;;
      Some (ResWrite c e :: rs, h)
  | OpSum p :: ops =>
      '(d, h) <- Sum p h ;;
      '(rs, h) <- run ops h ;;
      Some (ResSum d :: rs, h)
  end.

Inductive reachable : hash256 -> Prop :=
| reach_New seed0 : in64 seed0 -> reachable (New seed0)
| reach_Write h buf r h' :
    reachable h -> Write buf h = Some (r, h') -> reachable h'
| reach_Sum h p d h' :
    reachable h -> Sum p h = Some (d, h') -> reachable h'
| reach_Reset h : reachable h -> reachable (Reset h)
| reach_Unmarshal h data e h' :
    reachable h -> UnmarshalBinary data h = Some (e, h') -> reachable h'.

Definition wf (h : hash256) : Prop :=
  length (block h) = 32%nat /\ in64x4 (s h) /\ in64 (seed h) /\
  in64 (total h) /\ 0 <= n h < 32.

End Blocked.

(** ** What an engine has taken in *)

(** The bytes of a buffer after its last complete block. *)
Definition rest (buffer : list byte) : list byte :=
  skipn (32 * (length buffer / 32)) buffer.

(** A chunk sequence in which every chunk that meets [k] pending bytes
    ([k] > 0) is long enough to complete the pending block; [k] is the
    pending length before the first chunk. *)
Fixpoint completes (k : nat) (chunks : list (list byte)) : bool :=
  match chunks with
  | [] => true
  | c :: chunks =>
      ((k =? 0)%nat || (32 - k <=? length c)%nat)
      && completes ((k + length c) mod 32) chunks
  end.

(** The part of an engine that later calls can observe: the accumulator, the
    words of the last absorbed block, the bytes not yet absorbed and the
    byte count. *)
Record taken : Type := Taken {
  acc : u64x4;
  cache : u64x4;
  pending : list byte;
  count : Z
}.

Definition fresh (seed : Z) : taken := Taken (Arr4 0 0 0 seed) zero4 [] 0.

(** Taking a chunk in: every complete block of the pending bytes followed by
    the chunk is absorbed, the remainder stays pending. *)
Definition take (v : taken) (c : list byte) : taken :=
  let data := pending v ++ c in
  Taken (fold_left (fun S blk => mix None S (words blk)) (complete_blocks data)
                   (acc v))
        (last (map words (complete_blocks data)) (cache v))
        (rest data)
        (add64 (count v) (u64 (len c))).

(** The digest of what was taken in: six rounds against the pending bytes
    laid over the image of the cached words, adding the byte count. *)
Definition digest_taken (v : taken) : list byte :=
  bytes (finalize (count v)
           (words (pending v ++ skipn (length (pending v)) (bytes (cache v))))
           (acc v)).

Definition taken_ok (v : taken) : Prop :=
  in64x4 (acc v) /\ in64x4 (cache v) /\ (length (pending v) < 32)%nat /\
  in64 (count v).

(** An engine of [src/pengyhash.go] that holds [v]. *)
Definition Cached_holds (h : Cached.hash256) (v : taken) : Prop :=
  Cached.s h = acc v /\ Cached.b h = cache v /\ Cached.total h = count v /\
  Cached.n h = len (pending v) /\
  firstn (length (pending v)) (Cached.tmp h) = pending v.

(** An engine of the README.md listing that holds [v]. *)
Definition Blocked_holds (h : Blocked.hash256) (v : taken) : Prop :=
  Blocked.s h = acc v /\ Blocked.total h = count v /\
  Blocked.n h = len (pending v) /\
  Blocked.block h = pending v ++ skipn (length (pending v)) (bytes (cache v)).

(** The wrapping sum of the four words of a 32-byte digest. *)
Definition sum_words (d : list byte) : Z :=
  let S := words d in add64 (add64 (add64 S.[0] S.[1]) S.[2]) S.[3].

(** ** Undoing the mixing core *)

Definition sub64 (x y : Z) : Z := u64 (x - y).

(** The eight steps of [mix] read backwards: each addition is undone by a
    subtraction, each xor by the same xor, each rotation by [k] by a rotation
    by [64 - k]. *)
Definition unmix (extra64 : option Z) (S B : u64x4) : u64x4 :=
  let '(Arr4 T0 T1 T2 T3) := S in
  let '(Arr4 B0 B1 B2 B3) := B in
  let a1 := RotateLeft64 (Z.lxor T1 T2) 24 in
  let a2 := sub64 T2 (add64 a1 B0) in
  let a3 := RotateLeft64 (Z.lxor T3 T0) 48 in
  let a0 := sub64 T0 (add64 a3 B1) in
  let S3 := RotateLeft64 (sub64 a3 a2) 41 in
  let S2 := sub64 a2 (add64 S3 B2) in
  let r1 := match extra64 with
            | None => sub64 a1 a0
            | Some x => sub64 (sub64 a1 x) a0
            end in
  let S1 := RotateLeft64 r1 50 in
  let S0 := sub64 a0 (add64 S1 B3) in
  Arr4 S0 S1 S2 S3.

(** The digest expected by [TestOutput]. *)
Definition want : list byte :=
  [Byte.x01; Byte.x54; Byte.xba; Byte.x8a; Byte.x00; Byte.x37; Byte.x34; Byte.x6c;
   Byte.x32; Byte.x6a; Byte.xde; Byte.x13; Byte.x9f; Byte.xda; Byte.xd7; Byte.x4b;
   Byte.xd0; Byte.x16; Byte.x99; Byte.x27; Byte.xbc; Byte.x2a; Byte.x26; Byte.x8c;
   Byte.xff; Byte.xe3; Byte.xac; Byte.xf2; Byte.x5c; Byte.x3c; Byte.xbf; Byte.xb0].

(** The 39 zero bytes [TestOutput] hashes. *)
Definition input : list byte := repeat Byte.x00 39.

(** * Properties *)

(** ** Words stay in range *)

Lemma u64_in64 x : in64 (u64 x).
Proof. unfold in64, u64. apply Z.mod_pos_bound. reflexivity. Qed.

Lemma u64_small x : in64 x -> u64 x = x.
Proof. unfold in64, u64. intros H. apply Z.mod_small. exact H. Qed.

Lemma add64_in64 x y : in64 (add64 x y).
Proof. apply u64_in64. Qed.

Lemma shl64_in64 x k : in64 (shl64 x k).
Proof. apply u64_in64. Qed.

Lemma in64_land x : in64 x <-> Z.land x (Z.ones 64) = x.
Proof.
  unfold in64. rewrite Z.land_ones by lia. split; intros H.
  - apply Z.mod_small; exact H.
  - rewrite <- H. apply Z.mod_pos_bound. reflexivity.
Qed.

Lemma lor_in64 x y : in64 x -> in64 y -> in64 (Z.lor x y).
Proof.
  rewrite !in64_land. intros Hx Hy.
  rewrite Z.land_lor_distr_l, Hx, Hy. reflexivity.
Qed.

Lemma lxor_in64 x y : in64 x -> in64 y -> in64 (Z.lxor x y).
Proof.
  rewrite !in64_land. intros Hx Hy.
  rewrite <- Hx, <- Hy at 2. Z.bitblast.
Qed.

Lemma shiftr_in64 x k : 0 <= k -> in64 x -> in64 (Z.shiftr x k).
Proof.
  unfold in64. intros Hk [H0 H1]. rewrite Z.shiftr_div_pow2 by exact Hk.
  assert (0 < 2 ^ k) by (apply Z.pow_pos_nonneg; lia).
  split.
  - apply Z.div_pos; lia.
  - apply Z.le_lt_trans with x; [ | exact H1 ].
    apply Z.div_le_upper_bound; nia.
Qed.

Lemma RotateLeft64_in64 x k : in64 x -> in64 (RotateLeft64 x k).
Proof.
  intros Hx. unfold RotateLeft64.
  assert (0 <= Z.land k 63 < 64) as Hs.
  { change 63 with (Z.ones 6). rewrite Z.land_ones by lia.
    change 64 with (2 ^ 6). apply Z.mod_pos_bound. reflexivity. }
  apply lor_in64.
  - apply shl64_in64.
  - apply shiftr_in64; [ lia | exact Hx ].
Qed.

Create HintDb in64.

#[local] Hint Resolve u64_in64 add64_in64 shl64_in64 lor_in64 lxor_in64
  RotateLeft64_in64 : in64.

Lemma in64x4_upd a i v : in64x4 a -> in64 v -> in64x4 (upd a i v).
Proof.
  unfold in64x4. intros (H0 & H1 & H2 & H3) Hv.
  destruct i as [|[|[|i]]]; simpl; auto.
Qed.

Lemma in64x4_zero4 : in64x4 zero4.
Proof. unfold in64x4, in64; simpl. lia. Qed.

Lemma in64x4_idx a i : in64x4 a -> in64 (idx a i).
Proof.
  unfold in64x4. intros (H0 & H1 & H2 & H3).
  destruct i as [|[|[|i]]]; simpl; auto.
Qed.

#[local] Hint Resolve in64x4_upd in64x4_zero4 in64x4_idx : in64.

(** ** Little-endian loads and stores *)

Lemma le_combine_cons x l :
  le_combine (x :: l) = Z.lor (byte.unsigned x) (Z.shiftl (le_combine l) 8).
Proof. reflexivity. Qed.

Lemma le_split_S k v :
  le_split (S k) v = byte.of_Z v :: le_split k (Z.shiftr v 8).
Proof. reflexivity. Qed.

Lemma shl64_byte x k : 0 <= k <= 56 -> shl64 (byte.unsigned x) k = Z.shiftl (byte.unsigned x) k.
Proof.
  intros Hk. unfold shl64. apply u64_small. unfold in64.
  pose proof (byte.unsigned_range x) as Hx.
  rewrite Z.shiftl_mul_pow2 by lia.
  assert (0 < 2 ^ k) by (apply Z.pow_pos_nonneg; lia).
  assert (2 ^ k <= 2 ^ 56) by (apply Z.pow_le_mono_r; lia).
  change (2 ^ 8) with 256 in Hx. change (2 ^ 64) with (256 * 2 ^ 56).
  split; [ nia | nia ].
Qed.

Lemma Uint64_le_combine b :
  (8 <= length b)%nat -> Uint64 b = Some (le_combine (firstn 8 b)).
Proof.
  intros H.
  do 8 (destruct b as [|? b]; [ simpl in H; lia | ]).
  unfold Uint64. rewrite !shl64_byte by lia.
  cbn [firstn]. rewrite !le_combine_cons, le_combine_nil.
  f_equal.
  rewrite !Z.shiftl_lor, !Z.shiftl_shiftl, Z.shiftl_0_l, Z.lor_0_r by lia.
  rewrite !Z.lor_assoc. reflexivity.
Qed.

Lemma PutUint64_le_split v b :
  (8 <= length b)%nat -> PutUint64 v b = Some (le_split 8 v ++ skipn 8 b).
Proof.
  intros H.
  do 8 (destruct b as [|? b]; [ simpl in H; lia | ]).
  unfold PutUint64. rewrite !le_split_S.
  rewrite !Z.shiftr_shiftr by lia. reflexivity.
Qed.

Lemma slice_from_ok b i :
  0 <= i <= len b -> slice_from b i = Some (skipn (Z.to_nat i) b).
Proof.
  intros H. unfold slice_from.
  destruct (Z.leb_spec 0 i); [ | lia ].
  destruct (Z.leb_spec i (len b)); [ reflexivity | lia ].
Qed.

Lemma slice_to_ok b j :
  0 <= j <= len b -> slice_to b j = Some (firstn (Z.to_nat j) b).
Proof.
  intros H. unfold slice_to.
  destruct (Z.leb_spec 0 j); [ | lia ].
  destruct (Z.leb_spec j (len b)); [ reflexivity | lia ].
Qed.

Lemma Uint64_at_ok buf i :
  0 <= i -> i + 8 <= len buf ->
  Uint64_at buf i = Some (le_combine (firstn 8 (skipn (Z.to_nat i) buf))).
Proof.
  intros H0 H1. unfold Uint64_at. rewrite slice_from_ok by lia.
  apply Uint64_le_combine. rewrite length_skipn. unfold len in H1. lia.
Qed.

Lemma load4_words buf : (32 <= length buf)%nat -> load4 buf = Some (words buf).
Proof.
  intros H. unfold load4.
  rewrite !Uint64_at_ok by (unfold len; lia). reflexivity.
Qed.

Lemma length_bytes a : length (bytes a) = 32%nat.
Proof. unfold bytes. rewrite !length_app, !length_le_split. reflexivity. Qed.

Lemma le_split_O v : le_split 0 v = [].
Proof. reflexivity. Qed.

Lemma store4_bytes a tmp0 :
  (32 <= length tmp0)%nat -> store4 a tmp0 = Some (bytes a ++ skipn 32 tmp0).
Proof.
  intros H.
  do 32 (destruct tmp0 as [|? tmp0]; [ simpl in H; lia | ]).
  unfold store4, at_from, bytes.
  repeat (rewrite slice_from_ok by (unfold len; cbn [length]; lia);
          change (Z.to_nat 0) with 0%nat; change (Z.to_nat 8) with 8%nat;
          change (Z.to_nat 16) with 16%nat; change (Z.to_nat 24) with 24%nat;
          cbn [skipn firstn app];
          rewrite PutUint64_le_split by (cbn [length]; lia);
          rewrite !le_split_S, !le_split_O;
          cbn [skipn firstn app]).
  reflexivity.
Qed.

Lemma firstn_app_l {A} (x y : list A) k : length x = k -> firstn k (x ++ y) = x.
Proof.
  intros <-. rewrite firstn_app, Nat.sub_diag, firstn_all. simpl.
  apply app_nil_r.
Qed.

Lemma skipn_app_l {A} (x y : list A) k : length x = k -> skipn k (x ++ y) = y.
Proof.
  intros <-. rewrite skipn_app, Nat.sub_diag, skipn_all. reflexivity.
Qed.

Lemma firstn_plus {A} k m (l : list A) :
  firstn (k + m) l = firstn k l ++ firstn m (skipn k l).
Proof.
  revert l. induction k as [|k IH]; intros l; [ reflexivity | ].
  destruct l as [|x l]; simpl; [ now rewrite firstn_nil | ].
  now rewrite IH.
Qed.

Lemma le_combine_in64 l : (length l <= 8)%nat -> in64 (le_combine l).
Proof.
  intros H. pose proof (le_combine_bound l) as [H0 H1]. split; [ exact H0 | ].
  apply Z.lt_le_trans with (1 := H1). apply Z.pow_le_mono_r; lia.
Qed.

Lemma words_in64x4 buf : in64x4 (words buf).
Proof.
  unfold in64x4, words; cbn [idx e0 e1 e2 e3].
  refine (conj _ (conj _ (conj _ _)));
    apply le_combine_in64; rewrite length_firstn; lia.
Qed.

#[local] Hint Resolve words_in64x4 : in64.

Lemma words_firstn buf : words (firstn 32 buf) = words buf.
Proof.
  unfold words. rewrite !skipn_firstn_comm, !firstn_firstn. reflexivity.
Qed.

Lemma words_app x l : length x = 32%nat -> words (x ++ l) = words x.
Proof.
  intros H. rewrite <- (words_firstn (x ++ l)), firstn_app_l by exact H.
  reflexivity.
Qed.

Lemma words_bytes a : in64x4 a -> words (bytes a) = a.
Proof.
  destruct a as [a0 a1 a2 a3]. unfold in64x4, words, bytes; cbn [idx e0 e1 e2 e3].
  intros (H0 & H1 & H2 & H3).
  change 24%nat with (8 + (8 + 8))%nat. change 16%nat with (8 + 8)%nat.
  rewrite <- !skipn_skipn.
  rewrite !(skipn_app_l (le_split 8 _)) by apply length_le_split.
  rewrite !(firstn_app_l (le_split 8 _)) by apply length_le_split.
  rewrite (firstn_all2 (n := 8) (le_split 8 a3))
    by (rewrite length_le_split; lia).
  rewrite !le_combine_split.
  change (2 ^ (Z.of_nat 8 * 8)) with (2 ^ 64).
  f_equal; apply Z.mod_small; assumption.
Qed.

Lemma bytes_words buf : (32 <= length buf)%nat -> bytes (words buf) = firstn 32 buf.
Proof.
  intros H. unfold bytes, words; cbn [idx e0 e1 e2 e3].
  rewrite !split_le_combine' by (rewrite length_firstn, ?length_skipn; lia).
  change 32%nat with (8 + (8 + (8 + 8)))%nat.
  rewrite !firstn_plus, !skipn_skipn. reflexivity.
Qed.

(** ** The inlined steps are the mixing core *)

Lemma Pengyhash_absorb_mix b s : Pengyhash_absorb b s = mix None s b.
Proof. destruct b, s. reflexivity. Qed.

Lemma Pengyhash_final_mix b seed s :
  Pengyhash_final b seed s = mix (Some (u64 seed)) s b.
Proof. destruct b, s. reflexivity. Qed.

Lemma mix_in64x4 extra S B : in64x4 (mix extra S B).
Proof.
  destruct S as [S0 S1 S2 S3], B as [B0 B1 B2 B3].
  unfold mix, in64x4; cbn [idx e0 e1 e2 e3].
  refine (conj _ (conj _ (conj _ _))); auto 6 with in64.
  - apply lxor_in64; [ apply add64_in64 | ].
    apply RotateLeft64_in64. destruct extra; apply add64_in64.
Qed.

#[local] Hint Resolve mix_in64x4 : in64.

Lemma iter6_ext {A} (f g : A -> A) x :
  (forall y, f y = g y) -> Nat.iter 6 f x = Nat.iter 6 g x.
Proof. intros H. simpl. rewrite !H. reflexivity. Qed.

(** ** [copy] *)

Lemma copy_short dst src :
  (length src <= length dst)%nat ->
  copy dst src = (src ++ skipn (length src) dst, len src).
Proof.
  intros H. unfold copy, len. rewrite firstn_all2 by exact H.
  f_equal. lia.
Qed.

Lemma copy_long dst src :
  (length dst <= length src)%nat ->
  copy dst src = (firstn (length dst) src, len dst).
Proof.
  intros H. unfold copy, len. rewrite skipn_all2 by exact H.
  rewrite app_nil_r. f_equal. lia.
Qed.

Lemma length_copy dst src : length (fst (copy dst src)) = length dst.
Proof.
  unfold copy; cbn [fst]. rewrite length_app, length_firstn, length_skipn. lia.
Qed.

(** ** The one-shot engine follows section 4.2 *)

Lemma block_at_skipn buffer i :
  block_at buffer (S i) = block_at (skipn 32 buffer) i.
Proof.
  unfold block_at. rewrite skipn_skipn. do 2 f_equal. lia.
Qed.

Lemma complete_blocks_count buffer k :
  (32 * k <= length buffer < 32 * k + 32)%nat ->
  complete_blocks buffer = map (block_at buffer) (seq 0 k).
Proof.
  intros H. unfold complete_blocks. do 2 f_equal.
  symmetry. apply Nat.div_unique with (r := (length buffer - 32 * k)%nat); lia.
Qed.

Lemma blocks_step buffer k :
  map (block_at buffer) (seq 0 (S k)) =
  firstn 32 buffer :: map (block_at (skipn 32 buffer)) (seq 0 k).
Proof.
  cbn [seq map]. f_equal. rewrite <- seq_shift, map_map.
  apply map_ext. intros i. apply block_at_skipn.
Qed.

Lemma last_cons_default {A} (l : list A) x d : last (x :: l) d = last l x.
Proof.
  revert x d. induction l as [|y l IH]; intros x d; [ reflexivity | ].
  change (last (x :: y :: l) d) with (last (y :: l) d).
  rewrite (IH y d), (IH y x). reflexivity.
Qed.

Lemma Pengyhash_loop_blocks k : forall fuel buf b s,
  (32 * k <= length buf < 32 * k + 32)%nat -> (k < fuel)%nat ->
  Pengyhash_loop fuel buf b s =
  Some (skipn (32 * k) buf,
        last (map words (map (block_at buf) (seq 0 k))) b,
        fold_left (fun S blk => mix None S (words blk))
                  (map (block_at buf) (seq 0 k)) s).
Proof.
  induction k as [|k IH]; intros fuel buf b s Hlen Hfuel;
    (destruct fuel as [|fuel]; [ lia | ]); cbn [Pengyhash_loop].
  - destruct (Z.leb_spec 32 (len buf)) as [Hge|Hlt]; [ unfold len in Hge; lia | ].
    reflexivity.
  - destruct (Z.leb_spec 32 (len buf)) as [Hge|Hlt]; [ | unfold len in Hlt; lia ].
    rewrite load4_words by lia.
    rewrite slice_from_ok by lia. change (Z.to_nat 32) with 32%nat.
    rewrite IH by (rewrite ?length_skipn; lia).
    rewrite blocks_step. cbn [map fold_left].
    rewrite last_cons_default, skipn_skipn, words_firstn, Pengyhash_absorb_mix.
    do 4 f_equal. lia.
Qed.

Lemma store4_zero32 a : store4 a zero32 = Some (bytes a).
Proof.
  rewrite store4_bytes by (unfold zero32; rewrite repeat_length; lia).
  unfold zero32. rewrite skipn_all2 by (rewrite repeat_length; lia).
  rewrite app_nil_r. reflexivity.
Qed.

Lemma div32_bounds m :
  (32 * (m / 32) <= m < 32 * (m / 32) + 32)%nat /\
  (m = 32 * (m / 32) + m mod 32)%nat.
Proof.
  pose proof (Nat.div_mod_eq m 32) as H.
  pose proof (Nat.mod_upper_bound m 32 ltac:(lia)) as H'.
  lia.
Qed.

Lemma Pengyhash_closed (buf : list byte) (seed : Z) :
  len buf < 2 ^ 63 -> 0 <= seed < 2 ^ 32 ->
  Pengyhash buf seed = Some (Digest_spec buf seed).
Proof.
  intros Hlen Hseed. unfold Pengyhash, Digest_spec, absorbed, virtual_block.
  destruct (div32_bounds (length buf)) as [Hk Hr].
  rewrite (complete_blocks_count buf (length buf / 32)) by exact Hk.
  rewrite (Pengyhash_loop_blocks (length buf / 32)) by lia.
  rewrite store4_zero32.
  replace (length buf - length buf mod 32)%nat with (32 * (length buf / 32))%nat
    by lia.
  rewrite copy_short by (rewrite length_skipn, length_bytes; lia).
  cbn [fst]. rewrite length_skipn.
  replace (length buf - 32 * (length buf / 32))%nat with (length buf mod 32)%nat by lia.
  rewrite load4_words
    by (rewrite length_app, !length_skipn, length_bytes; lia).
  rewrite (u64_small (len buf)) by (unfold in64, len in *; lia).
  unfold finalize.
  rewrite (iter6_ext _ (fun S => mix (Some seed) S
     (words (skipn (32 * (length buf / 32)) buf ++
             skipn (length buf mod 32)
               (bytes (last (map words (map (block_at buf)
                  (seq 0 (length buf / 32)))) zero4)))))).
  - reflexivity.
  - intros y. rewrite Pengyhash_final_mix, u64_small; [ reflexivity | ].
    unfold in64; lia.
Qed.

(** C8. For every buffer and every 32-bit seed, [Pengyhash] returns (it never
    panics and never runs out of loop fuel) the value section 4.2 describes:
    start from S = (0,0,0,len), absorb each complete 32-byte block as four
    little-endian words, lay the trailing r = len mod 32 bytes over the byte
    image of the last absorbed block's words (zero words when there is none),
    run six finalization rounds adding the seed, and sum the four words with
    wrap-around. *)
Theorem Pengyhash_one_shot (buf : list byte) (seed : Z) :
  len buf < 2 ^ 63 -> 0 <= seed < 2 ^ 32 ->
  Pengyhash buf seed = Some (Digest_spec buf seed).
Proof. exact (Pengyhash_closed buf seed). Qed.

Lemma Pengyhash_one_shot_witness :
  Pengyhash (repeat Byte.x00 39) 39 = Some (Digest_spec (repeat Byte.x00 39) 39).
Proof.
  apply Pengyhash_one_shot.
  - vm_compute. reflexivity.
  - lia.
Defined.

(** ** The engine of [src/pengyhash.go] *)

Module CachedProofs.
Import Cached.

Lemma Sum_round_mix b0 t s0 : Sum_round b0 t s0 = mix (Some t) s0 b0.
Proof. destruct b0, s0. reflexivity. Qed.

Lemma write32_mix_mix h : write32_mix h = set_s h (mix None (s h) (b h)).
Proof.
  destruct h as [[b0 b1 b2 b3] [s0 s1 s2 s3] sd t tm k]. reflexivity.
Qed.

Lemma write32_absorb buf h :
  (32 <= length buf)%nat -> write32 buf h = Some (absorb h buf).
Proof.
  intros H. unfold write32.
  rewrite !Uint64_at_ok by (unfold len; lia).
  rewrite write32_mix_mix.
  destruct h as [[b0 b1 b2 b3] [s0 s1 s2 s3] sd t tm k]. reflexivity.
Qed.

Lemma wf_absorb h blk : wf h -> wf (absorb h blk).
Proof.
  unfold wf, absorb. destruct h; cbn. intros (Hb & Hs & Hrest).
  auto with in64.
Qed.

Lemma Write_loop_blocks k : forall fuel buf h,
  (32 * k <= length buf < 32 * k + 32)%nat -> (k < fuel)%nat ->
  Write_loop fuel buf h =
  Some (skipn (32 * k) buf, fold_left absorb (map (block_at buf) (seq 0 k)) h).
Proof.
  induction k as [|k IH]; intros fuel buf h Hlen Hfuel;
    (destruct fuel as [|fuel]; [ lia | ]); cbn [Write_loop].
  - destruct (Z.leb_spec 32 (len buf)) as [Hge|Hlt]; [ unfold len in Hge; lia | ].
    reflexivity.
  - destruct (Z.leb_spec 32 (len buf)) as [Hge|Hlt]; [ | unfold len in Hlt; lia ].
    rewrite write32_absorb by lia.
    rewrite slice_from_ok by lia. change (Z.to_nat 32) with 32%nat.
    rewrite IH by (rewrite ?length_skipn; lia).
    rewrite blocks_step. cbn [map fold_left]. rewrite skipn_skipn.
    replace (absorb h (firstn 32 buf)) with (absorb h buf)
      by (unfold absorb; rewrite words_firstn; reflexivity).
    do 2 f_equal. f_equal. lia.
Qed.

Ltac wf_parts :=
  unfold wf, absorb;
  cbn [b s seed total tmp n set_b set_s set_seed set_total set_tmp set_n] in *;
  refine (conj _ (conj _ (conj _ (conj _ (conj _ _)))));
  [ auto with in64 | auto with in64 | auto with in64 | auto with in64
  | rewrite ?length_app, ?length_firstn, ?length_skipn; unfold len in *; try lia
  | unfold len in *; try lia ].

Lemma Write_fill_closed buf h :
  wf h -> Write_fill buf h = Some (fill buf h).
Proof.
  intros Hwf. unfold Write_fill, fill.
  destruct (Z.eqb_spec (n h) 0) as [Hn|Hn]; cbn [negb]; [ reflexivity | ].
  destruct h as [b0 s0 sd t tm k].
  destruct Hwf as (Hb & Hs & Hsd & Ht & Htm & Hk); cbn in Hb, Hs, Hsd, Ht, Htm, Hk, Hn.
  cbn [n tmp set_tmp set_n b s seed total].
  rewrite slice_from_ok by (unfold len; lia).
  assert (length (skipn (Z.to_nat k) tm) = (32 - Z.to_nat k)%nat) as Hd
    by (rewrite length_skipn; lia).
  destruct (Nat.ltb_spec (length buf) (32 - Z.to_nat k)) as [Hlt|Hge].
  - rewrite copy_short by lia.
    rewrite slice_from_ok by (unfold len; lia).
    destruct (Z.eqb_spec (k + len buf) 32) as [H32|H32]; [ unfold len in H32; lia | ].
    unfold len. rewrite Nat2Z.id, skipn_all, skipn_skipn.
    rewrite (Nat.add_comm (length buf)). reflexivity.
  - rewrite copy_long by lia.
    unfold len at 1 2 3 4. rewrite !Hd.
    rewrite slice_from_ok by (unfold len; lia).
    destruct (Z.eqb_spec (k + Z.of_nat (32 - Z.to_nat k)) 32) as [H32|H32]; [ | lia ].
    rewrite write32_absorb
      by (cbn [tmp]; rewrite !length_app, !length_firstn; lia).
    rewrite Nat2Z.id. reflexivity.
Qed.

Lemma wf_fill buf h : wf h -> wf (snd (fill buf h)).
Proof.
  intros Hwf. unfold fill.
  destruct (Z.eqb_spec (n h) 0) as [Hn|Hn]; [ exact Hwf | ].
  destruct h as [b0 s0 sd t tm k].
  destruct Hwf as (Hb & Hs & Hsd & Ht & Htm & Hk); cbn in Hb, Hs, Hsd, Ht, Htm, Hk, Hn.
  cbn [n tmp].
  destruct (Nat.ltb_spec (length buf) (32 - Z.to_nat k)) as [Hlt|Hge];
    cbn [snd]; wf_parts.
Qed.

Lemma wf_fold_absorb blks : forall h, wf h -> wf (fold_left absorb blks h).
Proof.
  induction blks as [|blk blks IH]; intros h Hwf; [ exact Hwf | ].
  cbn [fold_left]. apply IH, wf_absorb, Hwf.
Qed.

Lemma tmp_fold_absorb blks : forall h, tmp (fold_left absorb blks h) = tmp h.
Proof.
  induction blks as [|blk blks IH]; intros h; [ reflexivity | ].
  cbn [fold_left]. rewrite IH. reflexivity.
Qed.

Lemma Write_closed buf h :
  wf h -> Write buf h = Some (len buf, None, written buf h).
Proof.
  intros Hwf. unfold Write, written.
  assert (wf (set_total h (add64 (total h) (u64 (len buf))))) as Hwf'.
  { destruct h; destruct Hwf as (Hb & Hs & Hsd & Ht & Htm & Hk). wf_parts. }
  rewrite Write_fill_closed by exact Hwf'.
  pose proof (wf_fill buf _ Hwf') as Hwf''.
  destruct (fill buf (set_total h (add64 (total h) (u64 (len buf))))) as [buf1 h1].
  cbn [snd] in Hwf''.
  destruct (div32_bounds (length buf1)) as [Hk Hr].
  rewrite (Write_loop_blocks (length buf1 / 32)) by lia.
  rewrite copy_short; [ reflexivity | ].
  rewrite tmp_fold_absorb, length_skipn.
  destruct Hwf'' as (_ & _ & _ & _ & Htm & _). lia.
Qed.

Lemma wf_written buf h : wf h -> wf (written buf h).
Proof.
  intros Hwf. unfold written.
  assert (wf (set_total h (add64 (total h) (u64 (len buf))))) as Hwf'.
  { destruct h; destruct Hwf as (Hb & Hs & Hsd & Ht & Htm & Hk). wf_parts. }
  pose proof (wf_fill buf _ Hwf') as Hwf''.
  destruct (fill buf (set_total h (add64 (total h) (u64 (len buf))))) as [buf1 h1].
  cbn [snd] in Hwf''.
  destruct (div32_bounds (length buf1)) as [Hk Hr].
  pose proof (wf_fold_absorb (map (block_at buf1) (seq 0 (length buf1 / 32))) h1 Hwf'')
    as Hwf3.
  destruct (fold_left absorb _ h1) as [b0 s0 sd t tm k].
  destruct Hwf3 as (Hb & Hs & Hsd & Ht & Htm & Hk').
  cbn in Hb, Hs, Hsd, Ht, Htm. wf_parts.
  rewrite length_skipn. lia.
Qed.

Lemma wf_New seed0 : in64 seed0 -> wf (New seed0).
Proof.
  intros H. unfold wf, New, zero, in64x4, in64 in *; cbn.
  repeat split; try lia; reflexivity.
Qed.

Lemma wf_Reset h : wf h -> wf (Reset h).
Proof.
  destruct h as [b0 s0 sd t tm k]. unfold wf, Reset, in64x4, in64; cbn.
  intros (Hb & Hs & Hsd & Ht & Htm & Hk).
  repeat split; try lia; assumption.
Qed.

Lemma Sum_closed p h :
  wf h ->
  Sum p h = Some (p ++ bytes (finalize (total h) (words (virtual h)) (s h)), h).
Proof.
  destruct h as [b0 s0 sd t tm k]. intros (Hb & Hs & Hsd & Ht & Htm & Hk).
  cbn in Hb, Hs, Hsd, Ht, Htm, Hk.
  unfold Sum, virtual; cbn [b s seed total tmp n].
  rewrite store4_zero32. rewrite slice_to_ok by (unfold len; lia).
  rewrite copy_short by (rewrite length_firstn, length_bytes; lia).
  cbn [fst]. rewrite length_firstn, Htm.
  replace (Nat.min (Z.to_nat k) 32) with (Z.to_nat k) by lia.
  rewrite load4_words
    by (rewrite length_app, length_firstn, length_skipn, length_bytes; lia).
  unfold finalize.
  rewrite (iter6_ext _ _ _ (fun y => Sum_round_mix _ t y)).
  rewrite store4_zero32.
  destruct s0; reflexivity.
Qed.

Lemma reachable_wf h : reachable h -> wf h.
Proof.
  induction 1 as [seed0 Hseed | h buf r h' _ IH HW | h p d h' _ IH HS | h _ IH].
  - apply wf_New, Hseed.
  - rewrite Write_closed in HW by exact IH. injection HW as _ <-.
    apply wf_written, IH.
  - rewrite Sum_closed in HS by exact IH. injection HS as _ <-. exact IH.
  - apply wf_Reset, IH.
Qed.

(** *** A short [Write] onto pending bytes loses the pending length *)

(** The last statement of [Write], [h.n = copy(h.tmp[:], buf[:])], runs also
    when this call only added to the pending bytes; [buf] is empty by then
    and the pending length becomes 0, whatever it was. *)
Lemma short_Write_drops_pending buf h :
  wf h -> 0 < n h -> len buf < 32 - n h ->
  exists h', Write buf h = Some (len buf, None, h') /\ n h' = 0.
Proof.
  intros Hwf Hn Hshort. rewrite Write_closed by exact Hwf.
  eexists. split; [ reflexivity | ].
  unfold written, fill. cbn [n set_total].
  destruct (Z.eqb_spec (n h) 0) as [Hz|_]; [ lia | ].
  destruct (Nat.ltb_spec (length buf) (32 - Z.to_nat (n h))) as [_|Hge].
  - reflexivity.
  - unfold len in Hshort. lia.
Qed.

(** *** Bytes of [tmp] past the pending length are never read *)

Lemma similar_refl h : similar h h.
Proof. unfold similar. intuition. Qed.

Lemma similar_absorb h1 h2 blk :
  similar h1 h2 -> similar (absorb h1 blk) (absorb h2 blk).
Proof.
  destruct h1, h2. unfold similar, absorb; cbn.
  intros (Hb & Hs & Hsd & Ht & Hn & Htm). subst. intuition.
Qed.

Lemma similar_fold_absorb blks : forall h1 h2,
  similar h1 h2 -> similar (fold_left absorb blks h1) (fold_left absorb blks h2).
Proof.
  induction blks as [|blk blks IH]; intros h1 h2 H; [ exact H | ].
  cbn [fold_left]. apply IH, similar_absorb, H.
Qed.

Lemma similar_fill buf h1 h2 :
  wf h1 -> wf h2 -> similar h1 h2 ->
  fst (fill buf h1) = fst (fill buf h2) /\
  similar (snd (fill buf h1)) (snd (fill buf h2)).
Proof.
  destruct h1 as [b1 s1 sd1 t1 tm1 k1], h2 as [b2 s2 sd2 t2 tm2 k2].
  unfold wf, similar; cbn [b s seed total tmp n].
  intros (_ & _ & _ & _ & Htm1 & Hk1) (_ & _ & _ & _ & Htm2 & Hk2)
         (Hb & Hs & Hsd & Ht & Hn & Htm).
  subst b2 s2 sd2 t2 k2. unfold fill; cbn [n tmp].
  destruct (Z.eqb_spec k1 0) as [Hz|Hz].
  { cbn [fst snd b s seed total tmp n]. subst k1. intuition. }
  destruct (Nat.ltb_spec (length buf) (32 - Z.to_nat k1)) as [Hlt|Hge].
  - cbn [fst snd set_n set_tmp b s seed total tmp n].
    split; [ reflexivity | ]. repeat (split; [ reflexivity | ]).
    unfold len. rewrite Z2Nat.inj_add, Nat2Z.id by lia.
    rewrite !app_assoc.
    rewrite !firstn_app_l by (rewrite length_app, length_firstn; lia).
    rewrite Htm. reflexivity.
  - cbn [fst snd]. rewrite Htm. split; [ reflexivity | ].
    unfold absorb; cbn. intuition.
Qed.

Lemma similar_written buf h1 h2 :
  wf h1 -> wf h2 -> similar h1 h2 -> similar (written buf h1) (written buf h2).
Proof.
  intros Hwf1 Hwf2 Hsim. unfold written.
  assert (forall h, wf h -> wf (set_total h (add64 (total h) (u64 (len buf))))) as Ht.
  { intros h Hwf. destruct h; destruct Hwf as (? & ? & ? & ? & ? & ?). wf_parts. }
  assert (similar (set_total h1 (add64 (total h1) (u64 (len buf))))
                  (set_total h2 (add64 (total h2) (u64 (len buf))))) as Hsim'.
  { destruct h1, h2. unfold similar in *; cbn in *.
    destruct Hsim as (Hb & Hs & Hsd & Htt & Hn & Htm). subst. intuition. }
  destruct (similar_fill buf _ _ (Ht _ Hwf1) (Ht _ Hwf2) Hsim') as [Hbuf Hfill].
  destruct (fill buf (set_total h1 _)) as [buf1 g1].
  destruct (fill buf (set_total h2 _)) as [buf2 g2].
  cbn [fst snd] in Hbuf, Hfill. subst buf2.
  pose proof (similar_fold_absorb
    (map (block_at buf1) (seq 0 (length buf1 / 32))) g1 g2 Hfill) as Hfold.
  destruct (fold_left absorb _ g1) as [b1 s1 sd1 t1 tm1 k1].
  destruct (fold_left absorb _ g2) as [b2 s2 sd2 t2 tm2 k2].
  unfold similar in *; cbn in Hfold |- *.
  destruct Hfold as (Hb & Hs & Hsd & Htt & Hn & Htm). subst.
  repeat (split; [ reflexivity | ]).
  unfold len. rewrite Nat2Z.id, !firstn_app_l by reflexivity. reflexivity.
Qed.

Lemma similar_Sum p h1 h2 :
  wf h1 -> wf h2 -> similar h1 h2 ->
  option_map fst (Sum p h1) = option_map fst (Sum p h2).
Proof.
  intros Hwf1 Hwf2 Hsim. rewrite !Sum_closed by assumption.
  destruct h1, h2. unfold similar, virtual in *; cbn in *.
  destruct Hsim as (Hb & Hs & Hsd & Htt & Hn & Htm). subst.
  rewrite Htm. reflexivity.
Qed.

Lemma similar_digest_of chunks : forall h1 h2,
  wf h1 -> wf h2 -> similar h1 h2 -> digest_of h1 chunks = digest_of h2 chunks.
Proof.
  unfold digest_of.
  induction chunks as [|c chunks IH]; intros h1 h2 Hwf1 Hwf2 Hsim; cbn [feed].
  - pose proof (similar_Sum [] h1 h2 Hwf1 Hwf2 Hsim) as H.
    destruct (Sum [] h1) as [[d1 g1]|], (Sum [] h2) as [[d2 g2]|];
      cbn in H; congruence.
  - rewrite !Write_closed by assumption.
    apply IH; auto using wf_written, similar_written.
Qed.

(** X11. In this listing [Reset] restores every field that [New] sets; the
    stale bytes it leaves in [tmp] are never read, so an engine after [Reset]
    digests any later input as a fresh engine with the same seed does. *)
Lemma Reset_equivalence h chunks :
  reachable h ->
  seed (Reset h) = seed h /\ s (Reset h) = Arr4 0 0 0 (seed h) /\
  b (Reset h) = zero4 /\ total (Reset h) = 0 /\ n (Reset h) = 0 /\
  digest_of (Reset h) chunks = digest (seed h) chunks.
Proof.
  intros Hreach. pose proof (reachable_wf h Hreach) as Hwf.
  repeat (split; [ reflexivity | ]).
  unfold digest. apply similar_digest_of.
  - apply wf_Reset, Hwf.
  - apply wf_New, Hwf.
  - destruct h. unfold similar; cbn. intuition.
Qed.
End CachedProofs.

(** ** The engine listed in [src/README.md] *)

Module BlockedProofs.
Import Blocked.

Lemma Sum_round_mix_blk b0 t s0 : Sum_round b0 t s0 = mix (Some t) s0 b0.
Proof. destruct b0, s0. reflexivity. Qed.

Lemma write32_mix_mix_blk b0 h : write32_mix b0 h = set_s h (mix None (s h) b0).
Proof.
  destruct h as [bl [s0 s1 s2 s3] sd t k], b0. reflexivity.
Qed.

Lemma write32_absorb_blk buf h :
  (32 <= length buf)%nat -> write32 buf h = Some (absorb h buf).
Proof.
  intros H. unfold write32. rewrite load4_words by exact H.
  rewrite write32_mix_mix_blk. reflexivity.
Qed.

Ltac wf_parts :=
  unfold wf, absorb;
  cbn [block s seed total n set_block set_s set_seed set_total set_n] in *;
  refine (conj _ (conj _ (conj _ (conj _ _))));
  [ rewrite ?length_app, ?length_firstn, ?length_skipn; unfold len in *; try lia
  | auto with in64 | auto with in64 | auto with in64
  | unfold len in *; try lia ].

Lemma wf_absorb_blk h blk : wf h -> wf (absorb h blk).
Proof.
  destruct h. intros (Hbl & Hs & Hsd & Ht & Hk). wf_parts.
Qed.

Lemma Write_loop_wf k : forall fuel buf h,
  (32 * k <= length buf < 32 * k + 32)%nat -> (k < fuel)%nat -> wf h ->
  exists h', Write_loop fuel buf h = Some (skipn (32 * k) buf, h') /\
             wf h' /\ n h' = n h.
Proof.
  induction k as [|k IH]; intros fuel buf h Hlen Hfuel Hwf;
    (destruct fuel as [|fuel]; [ lia | ]); cbn [Write_loop].
  - destruct (Z.leb_spec 32 (len buf)) as [Hge|Hlt]; [ unfold len in Hge; lia | ].
    eauto.
  - destruct (Z.leb_spec 32 (len buf)) as [Hge|Hlt]; [ | unfold len in Hlt; lia ].
    rewrite write32_absorb_blk by lia.
    rewrite slice_from_ok by lia. change (Z.to_nat 32) with 32%nat.
    pose proof (wf_absorb_blk h buf Hwf) as Hwf1.
    assert (n (absorb h buf) = n h) as Hn1 by (destruct h; reflexivity).
    set (h1 := if len buf <? 64
               then set_block (absorb h buf) (fst (copy (block (absorb h buf)) buf))
               else absorb h buf).
    assert (wf h1 /\ n h1 = n h) as [Hwf2 Hn2].
    { subst h1. destruct (len buf <? 64); [ | auto ].
      destruct (absorb h buf) as [bl s0 sd t k0].
      destruct Hwf1 as (Hbl & Hs & Hsd & Ht & Hk). cbn in Hbl, Hn1.
      split; [ | exact Hn1 ].
      rewrite copy_long by (cbn [block]; lia). cbn [fst]. wf_parts. }
    destruct (IH fuel (skipn 32 buf) h1) as (h' & HL & Hwf' & Hn');
      [ rewrite length_skipn; lia | lia | exact Hwf2 | ].
    exists h'. rewrite HL, skipn_skipn.
    split; [ do 3 f_equal; lia | ]. split; [ exact Hwf' | congruence ].
Qed.

Lemma Write_fill_wf buf h :
  wf h -> exists buf' h', Write_fill buf h = Some (buf', h') /\ wf h'.
Proof.
  intros Hwf. unfold Write_fill.
  destruct (Z.eqb_spec (n h) 0) as [Hn|Hn]; cbn [negb]; [ eauto | ].
  destruct h as [bl s0 sd t k].
  destruct Hwf as (Hbl & Hs & Hsd & Ht & Hk); cbn in Hbl, Hs, Hsd, Ht, Hk, Hn.
  cbn [n block set_block set_n s seed total].
  rewrite slice_from_ok by (unfold len; lia).
  assert (length (skipn (Z.to_nat k) bl) = (32 - Z.to_nat k)%nat) as Hd
    by (rewrite length_skipn; lia).
  destruct (Nat.ltb_spec (length buf) (32 - Z.to_nat k)) as [Hlt|Hge].
  - rewrite copy_short by lia.
    rewrite slice_from_ok by (unfold len; lia).
    destruct (Z.eqb_spec (k + len buf) 32) as [H32|H32]; [ unfold len in H32; lia | ].
    eexists _, _. split; [ reflexivity | ]. wf_parts.
  - rewrite copy_long by lia.
    unfold len at 1 2 3 4. rewrite !Hd.
    rewrite slice_from_ok by (unfold len; lia).
    destruct (Z.eqb_spec (k + Z.of_nat (32 - Z.to_nat k)) 32) as [H32|H32]; [ | lia ].
    rewrite write32_absorb_blk
      by (cbn [block]; rewrite !length_app, !length_firstn; lia).
    eexists _, _. split; [ reflexivity | ]. wf_parts.
Qed.

Lemma Write_wf buf h :
  wf h -> exists h', Write buf h = Some (len buf, None, h') /\ wf h'.
Proof.
  intros Hwf. unfold Write.
  assert (wf (set_total h (add64 (total h) (u64 (len buf))))) as Hwf'.
  { destruct h; destruct Hwf as (Hb & Hs & Hsd & Ht & Hk). wf_parts. }
  destruct (Write_fill_wf buf _ Hwf') as (buf1 & h1 & -> & Hwf1).
  destruct (div32_bounds (length buf1)) as [Hk Hr].
  destruct (Write_loop_wf (length buf1 / 32) (S (length buf1)) buf1 h1)
    as (h2 & -> & Hwf2 & _); [ lia | lia | exact Hwf1 | ].
  destruct h2 as [bl s0 sd t k].
  destruct Hwf2 as (Hbl & Hs & Hsd & Ht & Hk'); cbn in Hbl.
  rewrite copy_short by (cbn [block]; rewrite length_skipn; lia).
  eexists. split; [ reflexivity | ]. wf_parts.
  rewrite length_skipn. lia.
Qed.

Lemma Sum_closed_blk p h :
  wf h ->
  Sum p h = Some (p ++ bytes (finalize (total h) (words (block h)) (s h)), h).
Proof.
  destruct h as [bl s0 sd t k]. intros (Hbl & Hs & Hsd & Ht & Hk).
  cbn in Hbl. unfold Sum; cbn [block s seed total n].
  rewrite load4_words by lia. unfold finalize.
  rewrite (iter6_ext _ _ _ (fun y => Sum_round_mix_blk _ t y)).
  rewrite store4_zero32.
  destruct s0; reflexivity.
Qed.

Lemma wf_New_blk seed0 : in64 seed0 -> wf (New seed0).
Proof.
  intros H. unfold wf, New, zero, in64x4, in64 in *; cbn.
  repeat split; try lia; reflexivity.
Qed.

Lemma wf_Reset_blk h : wf (Reset h).
Proof.
  unfold wf, Reset, zero, in64x4, in64; cbn.
  repeat split; try lia; reflexivity.
Qed.

Lemma index_ok data i :
  0 <= i < len data -> index data i = Some (nth (Z.to_nat i) data Byte.x00).
Proof.
  intros H. unfold index.
  destruct (Z.leb_spec 0 i); [ | lia ].
  destruct (Z.ltb_spec i (len data)); [ | lia ]. cbn [andb].
  apply nth_error_nth'. unfold len in H. lia.
Qed.

Lemma set_index_ok data i v :
  0 <= i < len data ->
  set_index data i v =
  Some (firstn (Z.to_nat i) data ++ v :: skipn (S (Z.to_nat i)) data).
Proof.
  intros H. unfold set_index.
  destruct (Z.leb_spec 0 i); [ | lia ].
  destruct (Z.ltb_spec i (len data)); [ reflexivity | lia ].
Qed.

(** The engine [UnmarshalBinary] decodes from a snapshot. *)
Lemma Unmarshal_closed data h :
  81 <= len data -> byte.unsigned (nth 80 data Byte.x00) < 32 ->
  UnmarshalBinary data h =
  Some (None,
        Hash256 (fst (copy (block h) data))
                (words (skipn 32 data))
                (le_combine (firstn 8 (skipn 64 data)))
                (le_combine (firstn 8 (skipn 72 data)))
                (byte.unsigned (nth 80 data Byte.x00))).
Proof.
  intros Hlen H80. unfold UnmarshalBinary.
  destruct (Z.ltb_spec (len data) (32 + 32 + 8 + 8 + 1)); [ lia | ].
  rewrite index_ok by lia. change (Z.to_nat 80) with 80%nat.
  rewrite Z.geb_leb. destruct (Z.leb_spec 32 (byte.unsigned (nth 80 data Byte.x00)));
    [ lia | ].
  rewrite slice_from_ok by lia. change (Z.to_nat 0) with 0%nat.
  change (skipn 0 data) with data.
  rewrite !Uint64_at_ok by lia.
  destruct h as [bl s0 sd t k].
  cbn [set_n set_total set_seed set_s set_block block s seed total n upd idx
       e0 e1 e2 e3].
  unfold words. rewrite !skipn_skipn. reflexivity.
Qed.

Lemma at_from_ok arr i f d :
  0 <= i <= len arr -> f (skipn (Z.to_nat i) arr) = Some d ->
  at_from arr i f = Some (firstn (Z.to_nat i) arr ++ d).
Proof.
  intros H Hf. unfold at_from. rewrite slice_from_ok by exact H.
  rewrite Hf. reflexivity.
Qed.

(** The snapshot [MarshalBinary] writes. *)
Lemma Marshal_closed h :
  length (block h) = 32%nat ->
  MarshalBinary h =
  Some (block h ++ bytes (s h) ++ le_split 8 (seed h) ++ le_split 8 (total h)
          ++ [byte.of_Z (n h)], None, h).
Proof.
  destruct h as [bl s0 sd t k]. cbn [block s seed total n]. intros Hbl.
  do 32 (destruct bl as [|? bl]; [ discriminate Hbl | ]).
  destruct bl; [ clear Hbl | discriminate Hbl ].
  unfold MarshalBinary, bytes; cbn [block s seed total n].
  let z := eval cbv in zero81 in change zero81 with z.
  erewrite at_from_ok; [ | unfold len; cbn [length]; lia | reflexivity ].
  cbn [copy fst length firstn skipn app Z.to_nat].
  repeat (erewrite at_from_ok;
    [ | unfold len; cbn [length]; lia
      | apply PutUint64_le_split; rewrite length_skipn; cbn [length]; lia ];
    rewrite !le_split_S, !le_split_O;
    change (Z.to_nat 32) with 32%nat; change (Z.to_nat 40) with 40%nat;
    change (Z.to_nat 48) with 48%nat; change (Z.to_nat 56) with 56%nat;
    change (Z.to_nat 64) with 64%nat; change (Z.to_nat 72) with 72%nat;
    cbn [firstn skipn app]).
  rewrite set_index_ok by (unfold len; cbn [length]; lia).
  change (Z.to_nat 80) with 80%nat. cbn [firstn skipn app].
  reflexivity.
Qed.

Lemma Unmarshal_short data h :
  len data < 81 ->
  UnmarshalBinary data h = Some (errors_New "invalid length", h).
Proof.
  intros H. unfold UnmarshalBinary.
  destruct (Z.ltb_spec (len data) (32 + 32 + 8 + 8 + 1)); [ reflexivity | lia ].
Qed.

Lemma Unmarshal_corrupt data h :
  81 <= len data -> 32 <= byte.unsigned (nth 80 data Byte.x00) ->
  UnmarshalBinary data h = Some (errors_New "invalid data", h).
Proof.
  intros Hlen H80. unfold UnmarshalBinary.
  destruct (Z.ltb_spec (len data) (32 + 32 + 8 + 8 + 1)); [ lia | ].
  rewrite index_ok by lia. change (Z.to_nat 80) with 80%nat.
  rewrite Z.geb_leb.
  destruct (Z.leb_spec 32 (byte.unsigned (nth 80 data Byte.x00)));
    [ reflexivity | lia ].
Qed.

Lemma wf_loaded bl data :
  length bl = 32%nat -> byte.unsigned (nth 80 data Byte.x00) < 32 ->
  wf (Hash256 (fst (copy bl data)) (words (skipn 32 data))
              (le_combine (firstn 8 (skipn 64 data)))
              (le_combine (firstn 8 (skipn 72 data)))
              (byte.unsigned (nth 80 data Byte.x00))).
Proof.
  intros Hbl Hok.
  pose proof (byte.unsigned_range (nth 80 data Byte.x00)).
  unfold wf; cbn [block s seed total n].
  refine (conj _ (conj _ (conj _ (conj _ _)))).
  - etransitivity; [ apply length_copy | exact Hbl ].
  - apply words_in64x4.
  - apply le_combine_in64. rewrite length_firstn. lia.
  - apply le_combine_in64. rewrite length_firstn. lia.
  - lia.
Qed.

Lemma wf_Unmarshal data h e h' :
  wf h -> UnmarshalBinary data h = Some (e, h') -> wf h'.
Proof.
  intros Hwf HU.
  destruct (Z.lt_ge_cases (len data) 81) as [Hlt|Hge].
  { rewrite Unmarshal_short in HU by exact Hlt. now injection HU as _ <-. }
  destruct (Z.le_gt_cases 32 (byte.unsigned (nth 80 data Byte.x00))) as [Hc|Hok].
  { rewrite Unmarshal_corrupt in HU by assumption. now injection HU as _ <-. }
  rewrite Unmarshal_closed in HU by lia. injection HU as _ <-.
  apply wf_loaded; [ apply Hwf | lia ].
Qed.

Lemma reachable_wf_blk h : reachable h -> wf h.
Proof.
  induction 1 as [seed0 Hseed | h buf r h' _ IH HW | h p d h' _ IH HS | h _ IH
                 | h data e h' _ IH HU].
  - apply wf_New_blk, Hseed.
  - destruct (Write_wf buf h IH) as (h2 & HW' & Hwf). congruence.
  - rewrite Sum_closed_blk in HS by exact IH. injection HS as _ <-. exact IH.
  - apply wf_Reset_blk.
  - eapply wf_Unmarshal; eassumption.
Qed.

(** C5. [UnmarshalBinary] answers a buffer shorter than 81 bytes with the
    length error, a buffer of at least 81 bytes whose byte at offset 80 is 32
    or more with the corruption error, and any other buffer with no error. *)
Theorem import_validation (data : list byte) (h : hash256) :
  (len data < 81 ->
     UnmarshalBinary data h = Some (errors_New "invalid length", h)) /\
  (81 <= len data -> 32 <= byte.unsigned (nth 80 data Byte.x00) ->
     UnmarshalBinary data h = Some (errors_New "invalid data", h)) /\
  (81 <= len data -> byte.unsigned (nth 80 data Byte.x00) < 32 ->
     exists h', UnmarshalBinary data h = Some (None, h')).
Proof.
  split; [ apply Unmarshal_short | ].
  split; [ apply Unmarshal_corrupt | ].
  intros Hlen H80. eexists. apply Unmarshal_closed; assumption.
Qed.

Lemma import_validation_witness :
  UnmarshalBinary [] (New 0) = Some (errors_New "invalid length", New 0) /\
  UnmarshalBinary (repeat Byte.x20 81) (New 0)
    = Some (errors_New "invalid data", New 0) /\
  exists h', UnmarshalBinary (repeat Byte.x1f 81) (New 0) = Some (None, h').
Proof.
  split; [ | split ].
  - apply (proj1 (import_validation [] (New 0))). reflexivity.
  - apply (proj1 (proj2 (import_validation (repeat Byte.x20 81) (New 0)))).
    + vm_compute. discriminate.
    + vm_compute. discriminate.
  - apply (proj2 (proj2 (import_validation (repeat Byte.x1f 81) (New 0)))).
    + vm_compute. discriminate.
    + reflexivity.
Defined.

(** C6. When [UnmarshalBinary] returns an error the engine is exactly the one
    it was given, every field included; and whatever it returns, an engine
    whose pending length was in range keeps a pending length in range. *)
Theorem import_atomicity (data : list byte) (h : hash256) e h' :
  UnmarshalBinary data h = Some (e, h') ->
  (e <> None -> h' = h) /\ (0 <= n h < 32 -> 0 <= n h' < 32).
Proof.
  intros HU.
  destruct (Z.lt_ge_cases (len data) 81) as [Hlt|Hge].
  { rewrite Unmarshal_short in HU by exact Hlt. injection HU as <- <-. auto. }
  destruct (Z.le_gt_cases 32 (byte.unsigned (nth 80 data Byte.x00))) as [Hc|Hok].
  { rewrite Unmarshal_corrupt in HU by assumption. injection HU as <- <-. auto. }
  rewrite Unmarshal_closed in HU by lia. injection HU as <- <-.
  split; [ congruence | ]. intros _. cbn [n].
  pose proof (byte.unsigned_range (nth 80 data Byte.x00)). lia.
Qed.

Lemma import_atomicity_witness :
  (errors_New "invalid data" <> None -> New 7 = New 7) /\
  (0 <= n (New 7) < 32 -> 0 <= n (New 7) < 32).
Proof.
  apply (import_atomicity (repeat Byte.xff 81) (New 7)).
  vm_compute. reflexivity.
Defined.

Lemma Unmarshal_Marshal h h1 :
  wf h -> length (block h1) = 32%nat ->
  UnmarshalBinary
    (block h ++ bytes (s h) ++ le_split 8 (seed h) ++ le_split 8 (total h)
       ++ [byte.of_Z (n h)]) h1 = Some (None, h).
Proof.
  destruct h as [bl s0 sd t k]. intros (Hbl & Hs & Hsd & Ht & Hk) Hbl1.
  cbn [block s seed total n] in *.
  set (data := bl ++ bytes s0 ++ le_split 8 sd ++ le_split 8 t ++ [byte.of_Z k]).
  assert (length data = 81%nat) as Hlen.
  { subst data. rewrite !length_app, length_bytes, !length_le_split, Hbl.
    reflexivity. }
  assert (skipn 32 data = bytes s0 ++ le_split 8 sd ++ le_split 8 t ++ [byte.of_Z k])
    as H32 by (subst data; apply skipn_app_l, Hbl).
  assert (skipn 64 data = le_split 8 sd ++ le_split 8 t ++ [byte.of_Z k]) as H64.
  { change 64%nat with (32 + 32)%nat. rewrite <- skipn_skipn, H32.
    apply skipn_app_l, length_bytes. }
  assert (skipn 72 data = le_split 8 t ++ [byte.of_Z k]) as H72.
  { change 72%nat with (8 + 64)%nat. rewrite <- skipn_skipn, H64.
    apply skipn_app_l, length_le_split. }
  assert (nth 80 data Byte.x00 = byte.of_Z k) as H80.
  { change 80%nat with (72 + 8)%nat. rewrite <- nth_skipn, H72.
    rewrite app_nth2 by (rewrite length_le_split; lia).
    rewrite length_le_split. reflexivity. }
  assert (byte.unsigned (byte.of_Z k) = k) as Hk'.
  { rewrite byte.unsigned_of_Z. unfold byte.wrap. apply Z.mod_small. lia. }
  rewrite Unmarshal_closed by (unfold len; rewrite ?H80, ?Hk'; lia).
  rewrite H32, H64, H72, H80, Hk'.
  rewrite copy_long by lia. cbn [fst]. rewrite Hbl1.
  subst data. rewrite (firstn_app_l bl) by exact Hbl.
  rewrite words_app, words_bytes by (apply length_bytes || exact Hs).
  rewrite !(firstn_app_l (le_split 8 _)) by apply length_le_split.
  rewrite !le_combine_split. change (2 ^ (Z.of_nat 8 * 8)) with (2 ^ 64).
  rewrite !Z.mod_small by assumption. reflexivity.
Qed.

(** C4. From any reachable engine [h], [MarshalBinary] returns 81 bytes and
    leaves [h] as it is; [UnmarshalBinary] of those bytes into any reachable
    engine [h1] succeeds and makes it equal to [h] in every field, so every
    later run of [Write] and [Sum] calls gives the same results and the same
    engine as the run from [h]. *)
Theorem state_round_trip (h h1 : hash256) :
  reachable h -> reachable h1 ->
  exists data,
    MarshalBinary h = Some (data, None, h) /\ length data = 81%nat /\
    UnmarshalBinary data h1 = Some (None, h) /\
    forall h2 ops,
      UnmarshalBinary data h1 = Some (None, h2) -> run ops h2 = run ops h.
Proof.
  intros Hr Hr1. pose proof (reachable_wf_blk h Hr) as Hwf.
  pose proof (reachable_wf_blk h1 Hr1) as (Hbl1 & _).
  pose proof Hwf as (Hbl & _).
  exists (block h ++ bytes (s h) ++ le_split 8 (seed h) ++ le_split 8 (total h)
            ++ [byte.of_Z (n h)]).
  pose proof (Unmarshal_Marshal h h1 Hwf Hbl1) as HU.
  split; [ apply Marshal_closed, Hbl | ].
  split; [ rewrite !length_app, length_bytes, !length_le_split, Hbl; reflexivity | ].
  split; [ exact HU | ].
  intros h2 ops H2. rewrite HU in H2. injection H2 as <-. reflexivity.
Qed.

Lemma state_round_trip_witness :
  exists data,
    MarshalBinary (New 1) = Some (data, None, New 1) /\ length data = 81%nat /\
    UnmarshalBinary data (New 0) = Some (None, New 1) /\
    forall h2 ops,
      UnmarshalBinary data (New 0) = Some (None, h2) ->
      run ops h2 = run ops (New 1).
Proof.
  apply (state_round_trip (New 1) (New 0)).
  - apply reach_New. unfold in64. lia.
  - apply reach_New. unfold in64. lia.
Defined.
End BlockedProofs.

(** ** Both listings *)

(** C1 (fails on the code). [Write] ends with [h.n = copy(..., buf[:])] even
    when the bytes of this call went into a partly filled pending buffer and
    [buf] is by then empty: the pending length falls back to 0. Writing 01,
    02, 03 one byte at a time therefore gives, in both listings, a digest
    other than the digest of one [Write] of 01 02 03 (seed 0); a zero-length
    [Write] after a one-byte [Write] forgets the pending byte as well. *)
Theorem chunked_writes_change_the_digest :
  Cached.digest 0 [[Byte.x01]; [Byte.x02]; [Byte.x03]]
    <> Cached.digest 0 [[Byte.x01; Byte.x02; Byte.x03]] /\
  Blocked.digest 0 [[Byte.x01]; [Byte.x02]; [Byte.x03]]
    <> Blocked.digest 0 [[Byte.x01; Byte.x02; Byte.x03]] /\
  option_map Cached.n (Cached.feed [[Byte.x01]; [Byte.x02]] (Cached.New 0)) = Some 0 /\
  option_map Cached.n (Cached.feed [[Byte.x01; Byte.x02]] (Cached.New 0)) = Some 2 /\
  option_map Blocked.n (Blocked.feed [[Byte.x01]; [Byte.x02]] (Blocked.New 0)) = Some 0 /\
  option_map Blocked.n (Blocked.feed [[Byte.x01; Byte.x02]] (Blocked.New 0)) = Some 2 /\
  option_map Cached.n (Cached.feed [[Byte.x01]; []] (Cached.New 0)) = Some 0 /\
  Cached.digest 0 [[Byte.x01]; []] <> Cached.digest 0 [[Byte.x01]].
Proof.
  repeat split; try (vm_compute; reflexivity); vm_compute; discriminate.
Qed.

(** C2 (fails on the listing in README.md). There [Reset] assigns
    [hash256{}] to the whole engine before it reads [h.seed], so the seed is
    gone: every engine is reset to [New(0)], and an engine made with seed 1
    digests the empty input, after [Reset], as seed 0 does and not as seed 1
    does. *)
Theorem Reset_forgets_the_seed :
  (forall h, Blocked.Reset h = Blocked.New 0) /\
  Blocked.seed (Blocked.Reset (Blocked.New 1)) = 0 /\
  Blocked.s (Blocked.Reset (Blocked.New 1)) = Arr4 0 0 0 0 /\
  Blocked.digest_of (Blocked.Reset (Blocked.New 1)) [[]] = Blocked.digest 0 [[]] /\
  Blocked.digest_of (Blocked.Reset (Blocked.New 1)) [[]] <> Blocked.digest 1 [[]].
Proof.
  repeat split; try (vm_compute; reflexivity); vm_compute; discriminate.
Qed.

(** C3. The vectors of [TestOutput]: [Pengyhash] of 39 zero bytes with seed
    39 is 0xf4f178b8b8deb902, and an engine made with seed 39 that is written
    the same 39 bytes in one call returns the 32 expected bytes from
    [Sum(nil)], in both listings. *)
Theorem known_vectors :
  Pengyhash input 39 = Some 0xf4f178b8b8deb902 /\
  Cached.digest 39 [input] = Some want /\
  Blocked.digest 39 [input] = Some want.
Proof.
  repeat split; vm_compute; reflexivity.
Qed.

(** C7. On every reachable engine, in both listings, [Sum] returns and leaves
    every field of the engine as it was; hence a second [Sum] with no [Write]
    in between returns the same bytes, and a [Write] after the [Sum] behaves
    as the [Write] without it. *)
Theorem Sum_leaves_the_engine :
  (forall h p, Cached.reachable h ->
     exists out,
       Cached.Sum p h = Some (out, h) /\
       forall h1, Cached.Sum p h = Some (out, h1) ->
         Cached.Sum p h1 = Some (out, h1) /\
         forall buf, Cached.Write buf h1 = Cached.Write buf h) /\
  (forall h p, Blocked.reachable h ->
     exists out,
       Blocked.Sum p h = Some (out, h) /\
       forall h1, Blocked.Sum p h = Some (out, h1) ->
         Blocked.Sum p h1 = Some (out, h1) /\
         forall buf, Blocked.Write buf h1 = Blocked.Write buf h).
Proof.
  split; intros h p Hr.
  - pose proof (CachedProofs.Sum_closed p h (CachedProofs.reachable_wf h Hr)) as HS.
    eexists. split; [ exact HS | ].
    intros h1 H1. rewrite HS in H1. injection H1 as <-. auto.
  - pose proof (BlockedProofs.Sum_closed_blk p h (BlockedProofs.reachable_wf_blk h Hr)) as HS.
    eexists. split; [ exact HS | ].
    intros h1 H1. rewrite HS in H1. injection H1 as <-. auto.
Qed.

Lemma Sum_leaves_the_engine_witness :
  (exists out,
     Cached.Sum [] (Cached.New 39) = Some (out, Cached.New 39) /\
     forall h1, Cached.Sum [] (Cached.New 39) = Some (out, h1) ->
       Cached.Sum [] h1 = Some (out, h1) /\
       forall buf, Cached.Write buf h1 = Cached.Write buf (Cached.New 39)) /\
  (exists out,
     Blocked.Sum [] (Blocked.New 39) = Some (out, Blocked.New 39) /\
     forall h1, Blocked.Sum [] (Blocked.New 39) = Some (out, h1) ->
       Blocked.Sum [] h1 = Some (out, h1) /\
       forall buf, Blocked.Write buf h1 = Blocked.Write buf (Blocked.New 39)).
Proof.
  split.
  - apply (proj1 Sum_leaves_the_engine).
    apply Cached.reach_New. unfold in64. lia.
  - apply (proj2 Sum_leaves_the_engine).
    apply Blocked.reach_New. unfold in64. lia.
Defined.

(** C9. Absorbing a block runs the eight steps of the mixing core with no
    extra term ([write32] in both listings, and the loop of [Pengyhash]).
    Finalization runs the same eight steps six times on a copy of the state
    against one constant block, adding in the S1 step the total byte count
    ([Sum], both listings) or the 32-bit seed ([Pengyhash]). *)
Theorem finalization_structure :
  (forall buf h, (32 <= length buf)%nat ->
     exists h', Cached.write32 buf h = Some h' /\
                Cached.s h' = mix None (Cached.s h) (words buf)) /\
  (forall buf h, (32 <= length buf)%nat ->
     exists h', Blocked.write32 buf h = Some h' /\
                Blocked.s h' = mix None (Blocked.s h) (words buf)) /\
  (forall b s, Pengyhash_absorb b s = mix None s b) /\
  (forall h p, Cached.reachable h ->
     Cached.Sum p h =
     Some (p ++ bytes (Nat.iter 6
                         (fun S => mix (Some (Cached.total h)) S
                                       (words (Cached.virtual h)))
                         (Cached.s h)), h)) /\
  (forall h p, Blocked.reachable h ->
     Blocked.Sum p h =
     Some (p ++ bytes (Nat.iter 6
                         (fun S => mix (Some (Blocked.total h)) S
                                       (words (Blocked.block h)))
                         (Blocked.s h)), h)) /\
  (forall buf seed, len buf < 2 ^ 63 -> 0 <= seed < 2 ^ 32 ->
     Pengyhash buf seed =
     Some (let S := Nat.iter 6
                      (fun S => mix (Some seed) S (words (virtual_block buf)))
                      (absorbed buf) in
           add64 (add64 (add64 S.[0] S.[1]) S.[2]) S.[3])).
Proof.
  refine (conj _ (conj _ (conj _ (conj _ (conj _ _))))).
  - intros buf h H. rewrite CachedProofs.write32_absorb by exact H.
    eexists. split; [ reflexivity | ]. destruct h; reflexivity.
  - intros buf h H. rewrite BlockedProofs.write32_absorb_blk by exact H.
    eexists. split; [ reflexivity | ]. destruct h; reflexivity.
  - apply Pengyhash_absorb_mix.
  - intros h p Hr.
    exact (CachedProofs.Sum_closed p h (CachedProofs.reachable_wf h Hr)).
  - intros h p Hr.
    exact (BlockedProofs.Sum_closed_blk p h (BlockedProofs.reachable_wf_blk h Hr)).
  - exact Pengyhash_closed.
Qed.

Lemma finalization_structure_witness :
  (exists h', Cached.write32 input (Cached.New 39) = Some h' /\
              Cached.s h' = mix None (Cached.s (Cached.New 39)) (words input)) /\
  Cached.Sum [] (Cached.New 39) =
    Some ([] ++ bytes (Nat.iter 6
                         (fun S => mix (Some (Cached.total (Cached.New 39))) S
                                       (words (Cached.virtual (Cached.New 39))))
                         (Cached.s (Cached.New 39))), Cached.New 39) /\
  Pengyhash input 39 =
    Some (let S := Nat.iter 6
                     (fun S => mix (Some 39) S (words (virtual_block input)))
                     (absorbed input) in
          add64 (add64 (add64 S.[0] S.[1]) S.[2]) S.[3]).
Proof.
  destruct finalization_structure as (HA & _ & _ & HS & _ & HP).
  split; [ | split ].
  - apply HA. vm_compute. lia.
  - apply HS. apply Cached.reach_New. unfold in64. lia.
  - apply HP; [ vm_compute; reflexivity | lia ].
Defined.

(** C10. On every reachable engine, in both listings, there are 32 digest
    bytes [d] such that [Sum(p)] is [p] followed by [d] for every slice [p],
    the empty one included: the first [len(p)] bytes are [p], the length is
    [len(p) + 32], and [d] does not depend on [p]. *)
Theorem Sum_appends_the_digest :
  (forall h, Cached.reachable h ->
     exists d, length d = 32%nat /\
       forall p, option_map fst (Cached.Sum p h) = Some (p ++ d)) /\
  (forall h, Blocked.reachable h ->
     exists d, length d = 32%nat /\
       forall p, option_map fst (Blocked.Sum p h) = Some (p ++ d)).
Proof.
  split; intros h Hr.
  - exists (bytes (finalize (Cached.total h) (words (Cached.virtual h)) (Cached.s h))).
    split; [ apply length_bytes | ]. intros p.
    rewrite (CachedProofs.Sum_closed p h (CachedProofs.reachable_wf h Hr)).
    reflexivity.
  - exists (bytes (finalize (Blocked.total h) (words (Blocked.block h)) (Blocked.s h))).
    split; [ apply length_bytes | ]. intros p.
    rewrite (BlockedProofs.Sum_closed_blk p h (BlockedProofs.reachable_wf_blk h Hr)).
    reflexivity.
Qed.

Lemma Sum_appends_the_digest_witness :
  (exists d, length d = 32%nat /\
     forall p, option_map fst (Cached.Sum p (Cached.New 39)) = Some (p ++ d)) /\
  (exists d, length d = 32%nat /\
     forall p, option_map fst (Blocked.Sum p (Blocked.New 39)) = Some (p ++ d)).
Proof.
  split.
  - apply (proj1 Sum_appends_the_digest).
    apply Cached.reach_New. unfold in64. lia.
  - apply (proj2 Sum_appends_the_digest).
    apply Blocked.reach_New. unfold in64. lia.
Defined.

(** * Chunked input *)

(** ** Blocks of a concatenation *)

Lemma complete_blocks_short l : (length l < 32)%nat -> complete_blocks l = [].
Proof.
  intros H. rewrite (complete_blocks_count l 0) by lia. reflexivity.
Qed.

Lemma complete_blocks_cons l :
  (32 <= length l)%nat ->
  complete_blocks l = firstn 32 l :: complete_blocks (skipn 32 l).
Proof.
  intros H. destruct (div32_bounds (length (skipn 32 l))) as [Hk _].
  rewrite length_skipn in Hk.
  rewrite (complete_blocks_count l (S ((length l - 32) / 32))) by lia.
  rewrite (complete_blocks_count (skipn 32 l) ((length l - 32) / 32))
    by (rewrite length_skipn; lia).
  apply blocks_step.
Qed.

Lemma rest_short l : (length l < 32)%nat -> rest l = l.
Proof.
  intros H. unfold rest. rewrite Nat.div_small by exact H. reflexivity.
Qed.

Lemma rest_cons l : (32 <= length l)%nat -> rest l = rest (skipn 32 l).
Proof.
  intros H. unfold rest. rewrite skipn_skipn, length_skipn. f_equal.
  destruct (div32_bounds (length l)) as [Hk _].
  destruct (div32_bounds (length l - 32)) as [Hk' _].
  assert (length l / 32 = S ((length l - 32) / 32))%nat as ->; [ | lia ].
  symmetry.
  apply Nat.div_unique with (r := (length l - 32 - 32 * ((length l - 32) / 32))%nat);
    lia.
Qed.

Lemma length_rest l : (length (rest l) < 32)%nat /\ length (rest l) = (length l mod 32)%nat.
Proof.
  unfold rest. rewrite length_skipn.
  destruct (div32_bounds (length l)) as [Hk Hr]. lia.
Qed.

Lemma blocks_app_n k : forall d c,
  (32 * k <= length d < 32 * k + 32)%nat ->
  complete_blocks (d ++ c) = complete_blocks d ++ complete_blocks (rest d ++ c) /\
  rest (d ++ c) = rest (rest d ++ c).
Proof.
  induction k as [|k IH]; intros d c H.
  - rewrite (complete_blocks_short d), (rest_short d) by lia. auto.
  - assert (firstn 32 (d ++ c) = firstn 32 d) as Hf.
    { rewrite firstn_app. replace (32 - length d)%nat with 0%nat by lia.
      cbn [firstn]. apply app_nil_r. }
    assert (skipn 32 (d ++ c) = skipn 32 d ++ c) as Hs.
    { rewrite skipn_app. replace (32 - length d)%nat with 0%nat by lia.
      reflexivity. }
    rewrite (complete_blocks_cons (d ++ c)) by (rewrite length_app; lia).
    rewrite (rest_cons (d ++ c)) by (rewrite length_app; lia).
    rewrite (complete_blocks_cons d), (rest_cons d) by lia.
    rewrite Hf, Hs.
    destruct (IH (skipn 32 d) c) as [Hb Hr]; [ rewrite length_skipn; lia | ].
    rewrite Hb, Hr. auto.
Qed.

Lemma blocks_app d c :
  complete_blocks (d ++ c) = complete_blocks d ++ complete_blocks (rest d ++ c) /\
  rest (d ++ c) = rest (rest d ++ c).
Proof.
  apply (blocks_app_n (length d / 32)). apply div32_bounds.
Qed.

Lemma last_app_default {A} (l1 l2 : list A) d :
  last (l1 ++ l2) d = last l2 (last l1 d).
Proof.
  revert d. induction l1 as [|x l1 IH]; intros d; [ reflexivity | ].
  rewrite <- app_comm_cons, !last_cons_default. apply IH.
Qed.

Lemma add64_u64_l x y : add64 (u64 x) y = add64 x y.
Proof. unfold add64, u64. apply Zplus_mod_idemp_l. Qed.

Lemma add64_u64_r x y : add64 x (u64 y) = add64 x y.
Proof. unfold add64, u64. apply Zplus_mod_idemp_r. Qed.

Lemma add64_assoc x y z : add64 (add64 x y) z = add64 x (y + z).
Proof.
  unfold add64 at 2. rewrite add64_u64_l. unfold add64. f_equal. lia.
Qed.

(** Taking two chunks in is taking their concatenation in. *)
Lemma take_app v a c : take (take v a) c = take v (a ++ c).
Proof.
  unfold take; cbn [acc cache pending count].
  destruct (blocks_app (pending v ++ a) c) as [Hb Hr].
  rewrite app_assoc, Hb, Hr, fold_left_app, map_app, last_app_default.
  f_equal.
  rewrite !add64_u64_r, add64_assoc. unfold len. rewrite length_app.
  f_equal. lia.
Qed.

Lemma take_nil v : taken_ok v -> take v [] = v.
Proof.
  destruct v as [S B p t]. intros (_ & _ & Hp & Ht). cbn in Hp, Ht.
  unfold take; cbn [acc cache pending count].
  rewrite app_nil_r, complete_blocks_short, rest_short by exact Hp.
  cbn [fold_left map last]. f_equal.
  rewrite add64_u64_r. unfold add64, len. cbn [length].
  change (Z.of_nat 0) with 0. rewrite Z.add_0_r. apply u64_small, Ht.
Qed.

Lemma fold_mix_in64x4 blks S :
  in64x4 S -> in64x4 (fold_left (fun S blk => mix None S (words blk)) blks S).
Proof.
  revert S. induction blks as [|blk blks IH]; intros S H; [ exact H | ].
  cbn [fold_left]. apply IH, mix_in64x4.
Qed.

Lemma last_words_in64x4 blks d : in64x4 d -> in64x4 (last (map words blks) d).
Proof.
  revert d. induction blks as [|blk blks IH]; intros d H; [ exact H | ].
  cbn [map]. rewrite last_cons_default. apply IH, words_in64x4.
Qed.

Lemma taken_ok_take v c : taken_ok v -> taken_ok (take v c).
Proof.
  intros (HS & HB & Hp & Ht). unfold taken_ok, take; cbn [acc cache pending count].
  refine (conj _ (conj _ (conj _ _))).
  - apply fold_mix_in64x4, HS.
  - apply last_words_in64x4, HB.
  - apply length_rest.
  - apply add64_in64.
Qed.

Lemma taken_ok_fresh seed : in64 seed -> taken_ok (fresh seed).
Proof.
  intros H. unfold taken_ok, fresh, in64x4, in64 in *; cbn. lia.
Qed.

Lemma length_pending_take v c :
  length (pending (take v c)) = ((length (pending v) + length c) mod 32)%nat.
Proof.
  unfold take; cbn [pending].
  destruct (length_rest (pending v ++ c)) as [_ ->]. rewrite length_app.
  reflexivity.
Qed.

(** ** The engine of [src/pengyhash.go] on chunks that complete the pending block *)

Module CachedStream.
Import Cached CachedProofs.

Lemma fold_absorb_closed blks : forall h,
  fold_left absorb blks h =
  Hash256 (last (map words blks) (b h))
          (fold_left (fun S blk => mix None S (words blk)) blks (s h))
          (seed h) (total h) (tmp h) (n h).
Proof.
  induction blks as [|blk blks IH]; intros h; [ destruct h; reflexivity | ].
  cbn [fold_left map]. rewrite IH, last_cons_default.
  destruct h; reflexivity.
Qed.

Lemma holds_New seed0 : Cached_holds (New seed0) (fresh seed0).
Proof. unfold Cached_holds, New, fresh; cbn. auto. Qed.

Lemma holds_written c h v :
  wf h -> Cached_holds h v -> (n h = 0 \/ 32 - n h <= len c) ->
  Cached_holds (written c h) (take v c).
Proof.
  destruct h as [b0 s0 sd t tm k], v as [S B p ct].
  unfold wf, Cached_holds; cbn [b s seed total tmp n acc cache pending count].
  intros (_ & _ & _ & _ & Htm & Hk) (-> & -> & -> & -> & Hp) Hsafe.
  unfold len in Hk, Hsafe.
  unfold written, fill, take; cbn [set_total n tmp total acc cache pending count].
  destruct (Z.eqb_spec (len p) 0) as [Hz|Hz].
  - assert (p = []) as -> by (destruct p; [ reflexivity | discriminate Hz ]).
    cbn [app]. fold (complete_blocks c). fold (rest c).
    rewrite fold_absorb_closed; cbn [b s seed total tmp n set_tmp set_n].
    repeat (split; [ reflexivity | ]).
    apply firstn_app_l. reflexivity.
  - unfold len in Hz. replace (Z.to_nat (len p)) with (length p)
      by (unfold len; lia).
    destruct (Nat.ltb_spec (length c) (32 - length p)) as [Hlt|Hge]; [ lia | ].
    assert (firstn 32 (p ++ c) = p ++ firstn (32 - length p) c) as Hf.
    { rewrite firstn_app, firstn_all2 by lia. reflexivity. }
    assert (skipn 32 (p ++ c) = skipn (32 - length p) c) as Hs.
    { rewrite skipn_app, skipn_all2 by lia. reflexivity. }
    rewrite (complete_blocks_cons (p ++ c)), (rest_cons (p ++ c))
      by (rewrite length_app; lia).
    rewrite Hf, Hs, Hp. cbn [map fold_left]. rewrite last_cons_default.
    set (c' := skipn (32 - length p) c).
    fold (complete_blocks c'). fold (rest c').
    rewrite fold_absorb_closed.
    cbn [b s seed total tmp n set_tmp set_n absorb set_s set_b].
    repeat (split; [ reflexivity | ]).
    apply firstn_app_l. reflexivity.
Qed.

Lemma Sum_holds p0 h v :
  wf h -> Cached_holds h v -> Sum p0 h = Some (p0 ++ digest_taken v, h).
Proof.
  intros Hwf Hh. rewrite Sum_closed by exact Hwf.
  destruct h as [b0 s0 sd t tm k], v as [S B p ct].
  unfold Cached_holds in Hh; cbn [b s seed total tmp n acc cache pending count] in Hh.
  destruct Hh as (-> & -> & -> & -> & Hp).
  unfold virtual, digest_taken, len; cbn [b s seed total tmp n acc cache pending count].
  rewrite Nat2Z.id, Hp. reflexivity.
Qed.

(** Feeding chunks that complete the pending block keeps the engine in step
    with what was taken in. *)
Lemma feed_holds chunks : forall h v,
  wf h -> taken_ok v -> Cached_holds h v ->
  completes (length (pending v)) chunks = true ->
  exists h', feed chunks h = Some h' /\ wf h' /\
             Cached_holds h' (take v (concat chunks)).
Proof.
  induction chunks as [|c chunks IH]; intros h v Hwf Hok Hh Hc.
  - exists h. cbn [feed concat]. rewrite take_nil by exact Hok. auto.
  - cbn [completes] in Hc. apply andb_prop in Hc as [Hsafe Hc].
    cbn [feed concat]. rewrite Write_closed by exact Hwf.
    rewrite <- take_app. apply IH.
    + apply wf_written, Hwf.
    + apply taken_ok_take, Hok.
    + apply holds_written; [ exact Hwf | exact Hh | ].
      destruct Hh as (_ & _ & _ & Hn & _). rewrite Hn. unfold len.
      apply orb_prop in Hsafe as [Hz|Hl].
      * apply Nat.eqb_eq in Hz. lia.
      * apply Nat.leb_le in Hl. lia.
    + rewrite length_pending_take. exact Hc.
Qed.

Lemma digest_holds seed0 chunks :
  in64 seed0 -> completes 0 chunks = true ->
  digest seed0 chunks = Some (digest_taken (take (fresh seed0) (concat chunks))).
Proof.
  intros Hseed Hc. unfold digest, digest_of.
  destruct (feed_holds chunks (New seed0) (fresh seed0)) as (h' & -> & Hwf & Hh).
  - apply wf_New, Hseed.
  - apply taken_ok_fresh, Hseed.
  - apply holds_New.
  - exact Hc.
  - rewrite (Sum_holds [] h' _ Hwf Hh). reflexivity.
Qed.

End CachedStream.

(** ** The engine of the README.md listing on chunks that complete the pending block *)

Lemma last_default_irrelevant {A} (l : list A) d d' :
  l <> [] -> last l d = last l d'.
Proof.
  destruct l as [|x l]; [ congruence | ]. intros _.
  rewrite !last_cons_default. reflexivity.
Qed.

Lemma length_block_at buf i :
  (32 * S i <= length buf)%nat -> length (block_at buf i) = 32%nat.
Proof.
  intros H. unfold block_at. rewrite length_firstn, length_skipn. lia.
Qed.

Lemma complete_blocks_length l :
  Forall (fun blk => length blk = 32%nat) (complete_blocks l).
Proof.
  unfold complete_blocks. apply Forall_forall. intros blk Hin.
  apply in_map_iff in Hin as (i & <- & Hi). apply in_seq in Hi.
  apply length_block_at. destruct (div32_bounds (length l)) as [Hk _]. lia.
Qed.

Lemma bytes_last_words blks : forall B,
  Forall (fun blk => length blk = 32%nat) blks ->
  bytes (last (map words blks) B) = last blks (bytes B).
Proof.
  induction blks as [|blk blks IH]; intros B H; [ reflexivity | ].
  inversion H as [|? ? Hblk Hblks]; subst.
  cbn [map]. rewrite !last_cons_default, IH by exact Hblks.
  rewrite bytes_words by lia. rewrite <- Hblk, firstn_all. reflexivity.
Qed.

Lemma length_last_block (blks : list (list byte)) (d : list byte) :
  Forall (fun blk => length blk = 32%nat) blks -> length d = 32%nat ->
  length (last blks d) = 32%nat.
Proof.
  revert d. induction blks as [|blk blks IH]; intros d H Hd; [ exact Hd | ].
  inversion H; subst. rewrite last_cons_default. apply IH; assumption.
Qed.

Module BlockedStream.
Import Blocked BlockedProofs.

Lemma Write_loop_closed k : forall fuel buf h,
  (32 * k <= length buf < 32 * k + 32)%nat -> (k < fuel)%nat ->
  length (block h) = 32%nat ->
  Write_loop fuel buf h =
  Some (skipn (32 * k) buf,
        Hash256 (last (map (block_at buf) (seq 0 k)) (block h))
                (fold_left (fun S blk => mix None S (words blk))
                           (map (block_at buf) (seq 0 k)) (s h))
                (seed h) (total h) (n h)).
Proof.
  induction k as [|k IH]; intros fuel buf h Hlen Hfuel Hbl;
    (destruct fuel as [|fuel]; [ lia | ]); cbn [Write_loop].
  - destruct (Z.leb_spec 32 (len buf)) as [Hge|Hlt]; [ unfold len in Hge; lia | ].
    destruct h; reflexivity.
  - destruct (Z.leb_spec 32 (len buf)) as [Hge|Hlt]; [ | unfold len in Hlt; lia ].
    rewrite write32_absorb_blk by lia.
    rewrite slice_from_ok by lia. change (Z.to_nat 32) with 32%nat.
    rewrite blocks_step. cbn [map fold_left]. rewrite last_cons_default.
    destruct h as [bl s0 sd t k0]. cbn [block] in Hbl.
    unfold absorb; cbn [set_s block s seed total n].
    rewrite copy_long by lia. cbn [fst set_block]. rewrite Hbl.
    destruct (Z.ltb_spec (len buf) 64) as [H64|H64].
    + rewrite IH
        by (cbn [block set_block set_s]; unfold len in *;
            rewrite ?length_skipn, ?length_firstn; lia).
      cbn [block s seed total n set_block set_s].
      rewrite words_firstn, skipn_skipn. do 3 f_equal. lia.
    + rewrite IH
        by (cbn [block set_block set_s]; unfold len in *;
            rewrite ?length_skipn; lia).
      cbn [block s seed total n set_block set_s].
      rewrite words_firstn, skipn_skipn.
      f_equal. f_equal; [ f_equal; lia | ]. f_equal.
      apply last_default_irrelevant.
      unfold len in H64.
      destruct k as [|k]; [ lia | discriminate ].
Qed.

(** [Write] from an engine whose [block] is a whole block image and that has
    nothing pending. *)
Lemma Write_tail buf h :
  length (block h) = 32%nat ->
  (' (buf', h') <- Write_loop (S (length buf)) buf h ;;
   let '(block', n0) := copy (block h') buf' in
   Some (len buf, @None string, set_n (set_block h' block') n0)) =
  Some (len buf, None,
        Hash256 (rest buf ++ skipn (length (rest buf))
                                   (last (complete_blocks buf) (block h)))
                (fold_left (fun S blk => mix None S (words blk))
                           (complete_blocks buf) (s h))
                (seed h) (total h) (len (rest buf))).
Proof.
  intros Hbl. destruct (div32_bounds (length buf)) as [Hk _].
  rewrite (Write_loop_closed (length buf / 32)) by (exact Hk || lia || exact Hbl).
  fold (complete_blocks buf). fold (rest buf). cbn [block].
  rewrite copy_short; [ reflexivity | ].
  rewrite length_last_block by (apply complete_blocks_length || exact Hbl).
  destruct (length_rest buf). lia.
Qed.

Lemma holds_New_blk seed0 : Blocked_holds (New seed0) (fresh seed0).
Proof. unfold Blocked_holds, New, fresh; cbn. auto. Qed.

Lemma holds_Write c h v :
  wf h -> taken_ok v -> Blocked_holds h v -> (n h = 0 \/ 32 - n h <= len c) ->
  exists h', Write c h = Some (len c, None, h') /\ Blocked_holds h' (take v c).
Proof.
  destruct h as [bl s0 sd t k], v as [Sa B p ct].
  unfold wf, taken_ok, Blocked_holds; cbn [block s seed total n acc cache pending count].
  intros (Hbl & _ & _ & _ & Hk) (_ & HB & Hp & _) (-> & -> & -> & ->) Hsafe.
  unfold len in Hk, Hsafe.
  unfold Write, Write_fill, take; cbn [set_total n block total acc cache pending count].
  destruct (Z.eqb_spec (len p) 0) as [Hz|Hz]; cbn [negb].
  - assert (p = []) as -> by (destruct p; [ reflexivity | discriminate Hz ]).
    cbn [app length skipn] in *.
    rewrite (Write_tail c) by (cbn [block]; exact Hbl).
    cbn [block s seed total n].
    eexists. split; [ reflexivity | ].
    rewrite bytes_last_words by apply complete_blocks_length. auto.
  - unfold len in Hz.
    assert (length (skipn (length p) (bytes B)) = (32 - length p)%nat) as Hd
      by (rewrite length_skipn, length_bytes; lia).
    assert (len (skipn (length p) (bytes B)) = 32 - len p) as Hd'
      by (unfold len; rewrite Hd; lia).
    rewrite slice_from_ok by (unfold len; rewrite length_app, Hd; lia).
    replace (Z.to_nat (len p)) with (length p) by (unfold len; lia).
    rewrite (skipn_app_l p), (firstn_app_l p) by reflexivity.
    rewrite copy_long by (rewrite Hd; lia).
    rewrite Hd, Hd'.
    cbn [set_total set_block set_n set_s block s seed total n].
    rewrite slice_from_ok by (unfold len; lia).
    replace (len p + (32 - len p)) with 32 by lia. cbn [Z.eqb Pos.eqb].
    replace (Z.to_nat (32 - len p)) with (32 - length p)%nat by (unfold len; lia).
    set (blk := p ++ firstn (32 - length p) c).
    assert (length blk = 32%nat) as Hblk
      by (subst blk; rewrite length_app, length_firstn; lia).
    rewrite write32_absorb_blk by (cbn [block]; lia).
    unfold absorb; cbn [set_total set_block set_n set_s block s seed total n].
    set (c' := skipn (32 - length p) c).
    pose proof (Write_tail c' (Hash256 blk (mix None Sa (words blk)) sd
                                         (add64 ct (u64 (len c))) 0) Hblk) as HT.
    cbn [block s seed total n] in HT.
    assert (firstn 32 (p ++ c) = blk) as Hf.
    { subst blk. rewrite firstn_app, firstn_all2 by lia. reflexivity. }
    assert (skipn 32 (p ++ c) = c') as Hs.
    { subst c'. rewrite skipn_app, skipn_all2 by lia. reflexivity. }
    rewrite (complete_blocks_cons (p ++ c)), (rest_cons (p ++ c))
      by (rewrite length_app; lia).
    rewrite Hf, Hs. cbn [map fold_left]. rewrite last_cons_default.
    destruct (Write_loop (S (length c')) c' _) as [[buf' h']|]; [ | discriminate HT ].
    destruct (copy (block h') buf') as [block' n0].
    injection HT as HT. rewrite HT.
    eexists. split; [ reflexivity | ].
    cbn [block s seed total n].
    rewrite bytes_last_words by apply complete_blocks_length.
    rewrite bytes_words by lia.
    rewrite (firstn_all2 (n := 32) blk) by lia. auto.
Qed.

Lemma Sum_holds_blk p0 h v :
  wf h -> Blocked_holds h v -> Sum p0 h = Some (p0 ++ digest_taken v, h).
Proof.
  intros Hwf Hh. rewrite Sum_closed_blk by exact Hwf.
  destruct h as [bl s0 sd t k], v as [Sa B p ct].
  unfold Blocked_holds in Hh; cbn [block s seed total n acc cache pending count] in Hh.
  destruct Hh as (-> & -> & -> & ->).
  reflexivity.
Qed.

Lemma feed_holds_blk chunks : forall h v,
  wf h -> taken_ok v -> Blocked_holds h v ->
  completes (length (pending v)) chunks = true ->
  exists h', feed chunks h = Some h' /\ wf h' /\
             Blocked_holds h' (take v (concat chunks)).
Proof.
  induction chunks as [|c chunks IH]; intros h v Hwf Hok Hh Hc.
  - exists h. cbn [feed concat]. rewrite take_nil by exact Hok. auto.
  - cbn [completes] in Hc. apply andb_prop in Hc as [Hsafe Hc].
    cbn [feed concat].
    destruct (holds_Write c h v Hwf Hok Hh) as (h1 & HW & Hh1).
    { destruct Hh as (_ & _ & Hn & _). rewrite Hn. unfold len.
      apply orb_prop in Hsafe as [Hz|Hl].
      - apply Nat.eqb_eq in Hz. lia.
      - apply Nat.leb_le in Hl. lia. }
    destruct (Write_wf c h Hwf) as (h2 & HW2 & Hwf2).
    assert (h2 = h1) as -> by congruence.
    rewrite HW. rewrite <- take_app. apply IH.
    + exact Hwf2.
    + apply taken_ok_take, Hok.
    + exact Hh1.
    + rewrite length_pending_take. exact Hc.
Qed.

Lemma digest_holds_blk seed0 chunks :
  in64 seed0 -> completes 0 chunks = true ->
  digest seed0 chunks = Some (digest_taken (take (fresh seed0) (concat chunks))).
Proof.
  intros Hseed Hc. unfold digest, digest_of.
  destruct (feed_holds_blk chunks (New seed0) (fresh seed0)) as (h' & -> & Hwf & Hh).
  - apply wf_New_blk, Hseed.
  - apply taken_ok_fresh, Hseed.
  - apply holds_New_blk.
  - exact Hc.
  - rewrite (Sum_holds_blk [] h' _ Hwf Hh). reflexivity.
Qed.

End BlockedStream.

(** ** What chunked writing does guarantee *)

(** X1. In [src/pengyhash.go], when no chunk stops short of completing a
    partly filled pending block (so in particular when every chunk but the
    last is a multiple of 32 bytes long), writing the chunks one by one gives
    the digest of one [Write] of their concatenation, and [Sum] returns. *)
Theorem Cached_completing_chunks (seed0 : Z) (chunks : list (list byte)) :
  in64 seed0 -> completes 0 chunks = true ->
  Cached.digest seed0 chunks = Cached.digest seed0 [concat chunks] /\
  Cached.digest seed0 chunks <> None.
Proof.
  intros Hseed Hc.
  rewrite (CachedStream.digest_holds seed0 chunks Hseed Hc).
  rewrite (CachedStream.digest_holds seed0 [concat chunks] Hseed)
    by reflexivity.
  cbn [concat]. rewrite app_nil_r. split; [ reflexivity | discriminate ].
Qed.

Lemma Cached_completing_chunks_witness :
  Cached.digest 7 [repeat Byte.x01 32; [Byte.x02]; repeat Byte.x03 31; []]
  = Cached.digest 7 [concat [repeat Byte.x01 32; [Byte.x02]; repeat Byte.x03 31; []]] /\
  Cached.digest 7 [repeat Byte.x01 32; [Byte.x02]; repeat Byte.x03 31; []] <> None.
Proof.
  apply Cached_completing_chunks.
  - unfold in64. lia.
  - vm_compute. reflexivity.
Defined.

(** X2. The same for the listing in README.md. *)
Theorem Blocked_completing_chunks (seed0 : Z) (chunks : list (list byte)) :
  in64 seed0 -> completes 0 chunks = true ->
  Blocked.digest seed0 chunks = Blocked.digest seed0 [concat chunks] /\
  Blocked.digest seed0 chunks <> None.
Proof.
  intros Hseed Hc.
  rewrite (BlockedStream.digest_holds_blk seed0 chunks Hseed Hc).
  rewrite (BlockedStream.digest_holds_blk seed0 [concat chunks] Hseed)
    by reflexivity.
  cbn [concat]. rewrite app_nil_r. split; [ reflexivity | discriminate ].
Qed.

Lemma Blocked_completing_chunks_witness :
  Blocked.digest 7 [repeat Byte.x01 32; [Byte.x02]; repeat Byte.x03 31; []]
  = Blocked.digest 7 [concat [repeat Byte.x01 32; [Byte.x02]; repeat Byte.x03 31; []]] /\
  Blocked.digest 7 [repeat Byte.x01 32; [Byte.x02]; repeat Byte.x03 31; []] <> None.
Proof.
  apply Blocked_completing_chunks.
  - unfold in64. lia.
  - vm_compute. reflexivity.
Defined.

(** X3. On such chunk sequences the two listings compute the same digest. *)
Theorem listings_agree (seed0 : Z) (chunks : list (list byte)) :
  in64 seed0 -> completes 0 chunks = true ->
  Cached.digest seed0 chunks = Blocked.digest seed0 chunks.
Proof.
  intros Hseed Hc.
  rewrite (CachedStream.digest_holds seed0 chunks Hseed Hc).
  rewrite (BlockedStream.digest_holds_blk seed0 chunks Hseed Hc).
  reflexivity.
Qed.

Lemma listings_agree_witness :
  Cached.digest 7 [repeat Byte.x01 33; repeat Byte.x02 40]
  = Blocked.digest 7 [repeat Byte.x01 33; repeat Byte.x02 40].
Proof.
  apply listings_agree.
  - unfold in64. lia.
  - vm_compute. reflexivity.
Defined.

Lemma virtual_block_rest X :
  virtual_block X =
  rest X ++ skipn (length (rest X))
              (bytes (last (map words (complete_blocks X)) zero4)).
Proof.
  unfold virtual_block. destruct (length_rest X) as [_ ->].
  unfold rest. destruct (div32_bounds (length X)) as [_ Hr].
  do 2 f_equal. lia.
Qed.

Lemma digest_taken_fresh seed0 X :
  digest_taken (take (fresh seed0) X) =
  bytes (finalize (u64 (len X)) (words (virtual_block X))
           (fold_left (fun S blk => mix None S (words blk)) (complete_blocks X)
                      (Arr4 0 0 0 seed0))).
Proof.
  unfold digest_taken, take, fresh; cbn [acc cache pending count app].
  rewrite virtual_block_rest.
  replace (add64 0 (u64 (len X))) with (u64 (len X)); [ reflexivity | ].
  unfold add64. cbn [Z.add]. symmetry. apply u64_small, u64_in64.
Qed.

(** X4. One [Write] of a buffer to a new engine followed by [Sum(nil)]
    returns, in both listings, the little-endian image of the state obtained
    by absorbing every complete 32-byte block from (0,0,0,seed) and running
    the six final rounds, adding the byte count, against the trailing bytes
    laid over the last absorbed block. *)
Theorem digest_of_one_Write (seed0 : Z) (X : list byte) :
  in64 seed0 ->
  Cached.digest seed0 [X] =
    Some (bytes (finalize (u64 (len X)) (words (virtual_block X))
                   (fold_left (fun S blk => mix None S (words blk))
                              (complete_blocks X) (Arr4 0 0 0 seed0)))) /\
  Blocked.digest seed0 [X] = Cached.digest seed0 [X].
Proof.
  intros Hseed.
  rewrite (CachedStream.digest_holds seed0 [X] Hseed)
    by reflexivity.
  rewrite (BlockedStream.digest_holds_blk seed0 [X] Hseed)
    by reflexivity.
  cbn [concat]. rewrite app_nil_r, digest_taken_fresh. auto.
Qed.

Lemma digest_of_one_Write_witness :
  Cached.digest 39 [input] =
    Some (bytes (finalize (u64 (len input)) (words (virtual_block input))
                   (fold_left (fun S blk => mix None S (words blk))
                              (complete_blocks input) (Arr4 0 0 0 39)))) /\
  Blocked.digest 39 [input] = Cached.digest 39 [input].
Proof.
  apply digest_of_one_Write. unfold in64. lia.
Defined.

Lemma finalize_in64x4 x B S : in64x4 (finalize x B S).
Proof. unfold finalize. cbn [Nat.iter]. apply mix_in64x4. Qed.

(** X5. The incremental hash swaps the roles of length and seed: when the
    engine is seeded with the length of the buffer (below 2^32), the four
    words of its digest after one [Write] add up, with wrap-around, to
    [Pengyhash] of the buffer seeded with that length. [TestOutput] checks
    one instance of this pair. *)
Theorem digest_words_sum_to_Pengyhash (X : list byte) :
  len X < 2 ^ 32 ->
  exists d,
    Cached.digest (len X) [X] = Some d /\
    Blocked.digest (len X) [X] = Some d /\
    Pengyhash X (len X) = Some (sum_words d).
Proof.
  intros Hlen.
  assert (0 <= len X) as H0 by (unfold len; lia).
  assert (in64 (len X)) as Hin by (unfold in64; lia).
  eexists. split; [ | split ].
  - rewrite (CachedStream.digest_holds _ [X] Hin)
      by reflexivity.
    cbn [concat]. rewrite app_nil_r, digest_taken_fresh. reflexivity.
  - rewrite (BlockedStream.digest_holds_blk _ [X] Hin)
      by reflexivity.
    cbn [concat]. rewrite app_nil_r, digest_taken_fresh. reflexivity.
  - rewrite Pengyhash_closed by lia.
    unfold sum_words, Digest_spec, absorbed.
    rewrite words_bytes by apply finalize_in64x4.
    rewrite (u64_small (len X)) by exact Hin. reflexivity.
Qed.

Lemma digest_words_sum_to_Pengyhash_witness :
  exists d,
    Cached.digest (len input) [input] = Some d /\
    Blocked.digest (len input) [input] = Some d /\
    Pengyhash input (len input) = Some (sum_words d).
Proof.
  apply digest_words_sum_to_Pengyhash. vm_compute. reflexivity.
Defined.

(** ** What every [Write] does *)

Lemma len_rest l : len (rest l) = len l mod 32.
Proof.
  unfold len. destruct (length_rest l) as [_ ->].
  rewrite Nat2Z.inj_mod. reflexivity.
Qed.

Lemma mod32_shift a : (a - 32) mod 32 = a mod 32.
Proof.
  replace (a - 32) with (a + (-1) * 32) by lia. apply Z_mod_plus_full.
Qed.

(** X6. In [src/pengyhash.go], [Write] on a reachable engine never panics
    and never fails: it returns [len(buf)] and no error, keeps the seed, adds
    [len(buf)] to the byte count with wrap-around, and leaves the pending
    length at 0 when [buf] was shorter than the room left in a non-empty
    pending buffer, and at (pending + len(buf)) mod 32 otherwise. *)
Theorem Cached_Write_bookkeeping (buf : list byte) (h : Cached.hash256) :
  Cached.reachable h ->
  exists h',
    Cached.Write buf h = Some (len buf, None, h') /\
    Cached.seed h' = Cached.seed h /\
    Cached.total h' = add64 (Cached.total h) (len buf) /\
    Cached.n h' =
      (if (0 <? Cached.n h) && (len buf <? 32 - Cached.n h) then 0
       else (Cached.n h + len buf) mod 32).
Proof.
  intros Hr. pose proof (CachedProofs.reachable_wf h Hr) as Hwf.
  rewrite CachedProofs.Write_closed by exact Hwf.
  eexists. split; [ reflexivity | ].
  destruct h as [b0 s0 sd t tm k].
  destruct Hwf as (_ & _ & _ & _ & Htm & Hk).
  cbn [Cached.tmp Cached.n] in Htm, Hk.
  unfold Cached.written, Cached.fill;
    cbn [Cached.set_total Cached.n Cached.tmp Cached.total Cached.seed].
  destruct (Z.eqb_spec k 0) as [Hz|Hz].
  - subst k. rewrite CachedStream.fold_absorb_closed.
    cbn [Cached.set_n Cached.set_tmp Cached.n Cached.total Cached.seed].
    cbn [Cached.set_total Cached.n Cached.total Cached.seed].
    pose proof (len_rest buf) as Hrest. unfold rest in Hrest.
    rewrite Hrest, add64_u64_r. cbn [Z.ltb Z.compare andb Z.add].
    auto.
  - destruct (Z.ltb_spec 0 k) as [_|]; [ cbn [andb] | lia ].
    destruct (Nat.ltb_spec (length buf) (32 - Z.to_nat k)) as [Hlt|Hge];
      (destruct (Z.ltb_spec (len buf) (32 - k)) as [Hlt'|Hge'];
         unfold len in *; try lia).
    + cbn [length Nat.div map seq fold_left skipn Nat.mul app].
      cbn [Cached.set_n Cached.set_tmp Cached.n Cached.total Cached.seed].
      rewrite add64_u64_r. auto.
    + rewrite CachedStream.fold_absorb_closed.
      cbn [Cached.set_n Cached.set_tmp Cached.set_s Cached.set_b Cached.absorb
           Cached.n Cached.total Cached.seed].
      pose proof (len_rest (skipn (32 - Z.to_nat k) buf)) as Hrest.
      unfold rest, len in Hrest.
      cbn [Cached.set_total Cached.n Cached.total Cached.seed].
      rewrite Hrest, add64_u64_r, length_skipn.
      rewrite <- (mod32_shift (k + _)).
      repeat split. f_equal. lia.
Qed.

Lemma Cached_Write_bookkeeping_witness :
  exists h',
    Cached.Write [Byte.x01; Byte.x02] (Cached.New 5) = Some (len [Byte.x01; Byte.x02], None, h') /\
    Cached.seed h' = Cached.seed (Cached.New 5) /\
    Cached.total h' = add64 (Cached.total (Cached.New 5)) (len [Byte.x01; Byte.x02]) /\
    Cached.n h' =
      (if (0 <? Cached.n (Cached.New 5))
          && (len [Byte.x01; Byte.x02] <? 32 - Cached.n (Cached.New 5)) then 0
       else (Cached.n (Cached.New 5) + len [Byte.x01; Byte.x02]) mod 32).
Proof.
  apply Cached_Write_bookkeeping. apply Cached.reach_New. unfold in64. lia.
Defined.

Module BlockedMore.
Import Blocked BlockedProofs BlockedStream.

(** X7. The same bookkeeping in the README.md listing, where reachable
    engines include those loaded by [UnmarshalBinary]: [Write] never panics
    and never fails, returns [len(buf)], keeps the seed, adds [len(buf)] to
    the byte count, and leaves the pending length at 0 after a short write
    onto pending bytes and at (pending + len(buf)) mod 32 otherwise. *)
Theorem Write_bookkeeping (buf : list byte) (h : hash256) :
  reachable h ->
  exists h',
    Write buf h = Some (len buf, None, h') /\
    seed h' = seed h /\
    total h' = add64 (total h) (len buf) /\
    n h' =
      (if (0 <? n h) && (len buf <? 32 - n h) then 0
       else (n h + len buf) mod 32).
Proof.
  intros Hr. pose proof (reachable_wf_blk h Hr) as Hwf.
  destruct h as [bl s0 sd t k].
  destruct Hwf as (Hbl & _ & _ & _ & Hk). cbn [block n] in Hbl, Hk.
  unfold Write, Write_fill; cbn [set_total n block total seed s].
  destruct (Z.eqb_spec k 0) as [Hz|Hz]; cbn [negb].
  - subst k. rewrite (Write_tail buf) by exact Hbl.
    cbn [block s seed total n]. eexists. split; [ reflexivity | ].
    rewrite len_rest, add64_u64_r. cbn [Z.ltb Z.compare andb Z.add]. auto.
  - destruct (Z.ltb_spec 0 k) as [_|]; [ cbn [andb] | lia ].
    assert (length (skipn (Z.to_nat k) bl) = (32 - Z.to_nat k)%nat) as Hd
      by (rewrite length_skipn; lia).
    rewrite slice_from_ok by (unfold len; lia).
    destruct (Z.ltb_spec (len buf) (32 - k)) as [Hlt|Hge];
      [ unfold len in Hlt | unfold len in Hge ].
    + rewrite copy_short by lia.
      cbn [set_total set_block set_n set_s block n s seed total].
      rewrite slice_from_ok by (unfold len; lia).
      destruct (Z.eqb_spec (k + len buf) 32) as [H32|_]; [ unfold len in H32; lia | ].
      replace (Z.to_nat (len buf)) with (length buf) by (unfold len; lia).
      rewrite skipn_all.
      match goal with
      | |- context [Write_loop _ [] ?g] =>
          pose proof (Write_tail [] g) as HT
      end.
      cbn [set_total set_block set_n set_s block s seed total n] in HT.
      rewrite !length_app, length_firstn, !length_skipn in HT.
      specialize (HT ltac:(lia)).
      destruct (Write_loop _ _ _) as [[buf' h']|]; [ | discriminate HT ].
      destruct (copy (block h') buf') as [block' n0].
      injection HT as Hb Hs Hsd Ht Hn.
      eexists. split; [ reflexivity | ].
      cbn [seed total n set_n set_block]. rewrite Hsd, Ht, Hn, add64_u64_r. auto.
    + rewrite copy_long by lia. rewrite Hd.
      cbn [set_total set_block set_n set_s block n s seed total].
      rewrite slice_from_ok by (unfold len; rewrite Hd; lia).
      unfold len at 1 2. rewrite Hd.
      destruct (Z.eqb_spec (k + Z.of_nat (32 - Z.to_nat k)) 32) as [_|H32]; [ | lia ].
      rewrite write32_absorb_blk
        by (cbn [block]; rewrite length_app, !length_firstn; lia).
      unfold absorb; cbn [set_total set_block set_n set_s block n s seed total].
      replace (Z.to_nat (len (skipn (Z.to_nat k) bl))) with (32 - Z.to_nat k)%nat
        by (unfold len; rewrite Hd; lia).
      assert (length (firstn (Z.to_nat k) bl ++ firstn (32 - Z.to_nat k) buf)
              = 32%nat) as Hblk by (rewrite length_app, !length_firstn; lia).
      assert (len (skipn (32 - Z.to_nat k) buf) = k + len buf - 32) as Hc
        by (unfold len; rewrite length_skipn; lia).
      set (blk := firstn (Z.to_nat k) bl ++ firstn (32 - Z.to_nat k) buf) in *.
      set (c' := skipn (32 - Z.to_nat k) buf) in *.
      match goal with
      | |- context [Write_loop _ ?c ?g] =>
          pose proof (Write_tail c g) as HT
      end.
      cbn [set_total set_block set_n set_s block s seed total n] in HT.
      specialize (HT Hblk).
      destruct (Write_loop _ _ _) as [[buf' h']|]; [ | discriminate HT ].
      destruct (copy (block h') buf') as [block' n0].
      injection HT as Hb Hs Hsd Ht Hn.
      eexists. split; [ reflexivity | ].
      cbn [seed total n set_n set_block].
      rewrite Hsd, Ht, Hn, add64_u64_r, len_rest, Hc, mod32_shift.
      auto.
Qed.

Lemma Write_bookkeeping_witness :
  exists h',
    Write [Byte.x01; Byte.x02] (New 5) = Some (len [Byte.x01; Byte.x02], None, h') /\
    seed h' = seed (New 5) /\
    total h' = add64 (total (New 5)) (len [Byte.x01; Byte.x02]) /\
    n h' =
      (if (0 <? n (New 5)) && (len [Byte.x01; Byte.x02] <? 32 - n (New 5)) then 0
       else (n (New 5) + len [Byte.x01; Byte.x02]) mod 32).
Proof.
  apply Write_bookkeeping. apply reach_New. unfold in64. lia.
Defined.

Lemma Uint64_at_words data i j :
  (i + 32 <= length data)%nat -> (j < 4)%nat ->
  Uint64_at data (Z.of_nat (i + 8 * j)) = Some (idx (words (skipn i data)) j).
Proof.
  intros Hi Hj. rewrite Uint64_at_ok by (unfold len; lia).
  rewrite Nat2Z.id. unfold words.
  destruct j as [|[|[|[|j]]]]; try lia; cbn [idx e0 e1 e2 e3];
    rewrite ?skipn_skipn; do 4 f_equal; lia.
Qed.

Lemma firstn_1_skipn (l : list byte) i :
  (i < length l)%nat -> firstn 1 (skipn i l) = [nth i l Byte.x00].
Proof.
  intros H. rewrite <- (Nat.add_0_r i) at 2. rewrite <- nth_skipn.
  destruct (skipn i l) as [|x r] eqn:E; [ | reflexivity ].
  apply (f_equal (@length _)) in E. rewrite length_skipn in E.
  cbn [length] in E. lia.
Qed.

(** X8. [MarshalBinary] on a reachable engine never panics, returns no error,
    leaves the engine as it is, and writes 81 bytes laid out as: the 32 bytes
    of [block], the four words of [s], the seed and the byte count as
    little-endian 64-bit integers at offsets 32, 40, 48, 56, 64 and 72, and
    the pending length in the byte at offset 80. *)
Theorem snapshot_layout (h : hash256) :
  reachable h ->
  exists data,
    MarshalBinary h = Some (data, None, h) /\
    length data = 81%nat /\
    firstn 32 data = block h /\
    Uint64_at data 32 = Some (s h).[0] /\
    Uint64_at data 40 = Some (s h).[1] /\
    Uint64_at data 48 = Some (s h).[2] /\
    Uint64_at data 56 = Some (s h).[3] /\
    Uint64_at data 64 = Some (seed h) /\
    Uint64_at data 72 = Some (total h) /\
    option_map byte.unsigned (index data 80) = Some (n h).
Proof.
  intros Hr. pose proof (reachable_wf_blk h Hr) as Hwf.
  destruct h as [bl s0 sd t k].
  destruct Hwf as (Hbl & Hs & Hsd & Ht & Hk).
  cbn [block s seed total n] in *.
  rewrite Marshal_closed by exact Hbl. cbn [block s seed total n].
  set (data := bl ++ bytes s0 ++ le_split 8 sd ++ le_split 8 t ++ [byte.of_Z k]).
  assert (length data = 81%nat) as Hlen.
  { subst data. rewrite !length_app, length_bytes, !length_le_split, Hbl.
    reflexivity. }
  assert (skipn 32 data = bytes s0 ++ le_split 8 sd ++ le_split 8 t ++ [byte.of_Z k])
    as H32 by (subst data; apply skipn_app_l, Hbl).
  assert (skipn 64 data = le_split 8 sd ++ le_split 8 t ++ [byte.of_Z k]) as H64.
  { change 64%nat with (32 + 32)%nat. rewrite <- skipn_skipn, H32.
    apply skipn_app_l, length_bytes. }
  assert (skipn 72 data = le_split 8 t ++ [byte.of_Z k]) as H72.
  { change 72%nat with (8 + 64)%nat. rewrite <- skipn_skipn, H64.
    apply skipn_app_l, length_le_split. }
  assert (words (skipn 32 data) = s0) as Hw.
  { rewrite H32, words_app, words_bytes by (apply length_bytes || exact Hs).
    reflexivity. }
  exists data. split; [ reflexivity | ]. split; [ exact Hlen | ].
  split; [ subst data; apply firstn_app_l, Hbl | ].
  rewrite <- Hw.
  split; [ apply (Uint64_at_words data 32 0); lia | ].
  split; [ apply (Uint64_at_words data 32 1); lia | ].
  split; [ apply (Uint64_at_words data 32 2); lia | ].
  split; [ apply (Uint64_at_words data 32 3); lia | ].
  rewrite !Uint64_at_ok by (unfold len; lia).
  change (Z.to_nat 64) with 64%nat. change (Z.to_nat 72) with 72%nat.
  rewrite H64, H72.
  rewrite !(firstn_app_l (le_split 8 _)) by apply length_le_split.
  rewrite !le_combine_split. change (2 ^ (Z.of_nat 8 * 8)) with (2 ^ 64).
  rewrite !Z.mod_small by assumption.
  split; [ reflexivity | ]. split; [ reflexivity | ].
  rewrite index_ok by (unfold len; lia). change (Z.to_nat 80) with 80%nat.
  cbn [option_map]. f_equal.
  change 80%nat with (72 + 8)%nat. rewrite <- nth_skipn, H72.
  rewrite app_nth2 by (rewrite length_le_split; lia).
  rewrite length_le_split. cbn [Nat.sub nth].
  rewrite byte.unsigned_of_Z. unfold byte.wrap. apply Z.mod_small. lia.
Qed.

Lemma snapshot_layout_witness :
  exists data,
    MarshalBinary (New 9) = Some (data, None, New 9) /\
    length data = 81%nat /\
    firstn 32 data = block (New 9) /\
    Uint64_at data 32 = Some (s (New 9)).[0] /\
    Uint64_at data 40 = Some (s (New 9)).[1] /\
    Uint64_at data 48 = Some (s (New 9)).[2] /\
    Uint64_at data 56 = Some (s (New 9)).[3] /\
    Uint64_at data 64 = Some (seed (New 9)) /\
    Uint64_at data 72 = Some (total (New 9)) /\
    option_map byte.unsigned (index data 80) = Some (n (New 9)).
Proof.
  apply snapshot_layout. apply reach_New. unfold in64. lia.
Defined.

(** X9. Import then export: when [UnmarshalBinary] accepts a buffer (at least
    81 bytes, byte 80 below 32) into a reachable engine, [MarshalBinary] of
    the engine it produced returns exactly the first 81 bytes of that buffer.
    Every accepted 81-byte snapshot is therefore reproduced unchanged. *)
Theorem import_then_export (data : list byte) (h : hash256) :
  reachable h -> 81 <= len data -> byte.unsigned (nth 80 data Byte.x00) < 32 ->
  exists h',
    UnmarshalBinary data h = Some (None, h') /\
    MarshalBinary h' = Some (firstn 81 data, None, h').
Proof.
  intros Hr Hlen H80. pose proof (reachable_wf_blk h Hr) as (Hbl & _).
  unfold len in Hlen.
  rewrite Unmarshal_closed by (unfold len; lia).
  rewrite copy_long by lia. cbn [fst]. rewrite Hbl.
  eexists. split; [ reflexivity | ].
  rewrite Marshal_closed by (cbn [block]; rewrite length_firstn; lia).
  cbn [block s seed total n].
  rewrite bytes_words by (rewrite length_skipn; lia).
  rewrite !split_le_combine' by (rewrite length_firstn, length_skipn; lia).
  rewrite byte.of_Z_unsigned, <- (firstn_1_skipn data 80) by lia.
  do 2 f_equal.
  change 81%nat with (32 + (32 + (8 + (8 + 1))))%nat.
  rewrite !firstn_plus, !skipn_skipn. reflexivity.
Qed.

Lemma import_then_export_witness :
  exists h',
    UnmarshalBinary (repeat Byte.x1f 90) (New 0) = Some (None, h') /\
    MarshalBinary h' = Some (firstn 81 (repeat Byte.x1f 90), None, h').
Proof.
  apply import_then_export.
  - apply reach_New. unfold in64. lia.
  - vm_compute. discriminate.
  - vm_compute. reflexivity.
Defined.

Lemma Unmarshal_prefix data extra h :
  length (block h) = 32%nat -> 81 <= len data ->
  UnmarshalBinary (data ++ extra) h = UnmarshalBinary data h.
Proof.
  intros Hbl Hlen. unfold len in Hlen.
  assert (nth 80 (data ++ extra) Byte.x00 = nth 80 data Byte.x00) as H80
    by (apply app_nth1; lia).
  destruct (Z.le_gt_cases 32 (byte.unsigned (nth 80 data Byte.x00))) as [Hc|Hok].
  - rewrite !Unmarshal_corrupt
      by (rewrite ?H80; unfold len; rewrite ?length_app; lia).
    reflexivity.
  - rewrite !Unmarshal_closed
      by (rewrite ?H80; unfold len; rewrite ?length_app; lia).
    rewrite H80.
    rewrite !copy_long by (rewrite ?length_app; lia). cbn [fst].
    assert (forall i m, (i + m <= 81)%nat ->
              firstn m (skipn i (data ++ extra)) = firstn m (skipn i data)) as Hcut.
    { intros i m Him. rewrite skipn_app, firstn_app, length_skipn.
      replace (m - (length data - i))%nat with 0%nat by lia.
      cbn [firstn]. apply app_nil_r. }
    rewrite <- (words_firstn (skipn 32 (data ++ extra))).
    rewrite <- (words_firstn (skipn 32 data)).
    rewrite !Hcut by lia.
    pose proof (Hcut 0%nat 32%nat ltac:(lia)) as H0. cbn [skipn] in H0.
    rewrite Hbl, H0. reflexivity.
Qed.

(** X10. A successful import depends on nothing but the first 81 bytes of the
    buffer: bytes after offset 80 are ignored and no field of the target
    engine survives, so two reachable engines that accept buffers with the
    same first 81 bytes end up equal. *)
Theorem import_reads_81_bytes (data data' : list byte) (h1 h2 h' : hash256) :
  reachable h1 -> reachable h2 ->
  UnmarshalBinary data h1 = Some (None, h') ->
  firstn 81 data' = firstn 81 data ->
  UnmarshalBinary data' h2 = Some (None, h').
Proof.
  intros Hr1 Hr2 HU Hsame.
  pose proof (reachable_wf_blk h1 Hr1) as (Hbl1 & _).
  pose proof (reachable_wf_blk h2 Hr2) as (Hbl2 & _).
  destruct (Z.lt_ge_cases (len data) 81) as [Hlt|Hge].
  { rewrite Unmarshal_short in HU by exact Hlt. discriminate HU. }
  destruct (Z.le_gt_cases 32 (byte.unsigned (nth 80 data Byte.x00))) as [Hc|Hok].
  { rewrite Unmarshal_corrupt in HU by assumption. discriminate HU. }
  unfold len in Hge.
  assert (length (firstn 81 data) = 81%nat) as Hl by (rewrite length_firstn; lia).
  assert (81 <= length data')%nat as Hge'.
  { rewrite <- Hsame, length_firstn in Hl. lia. }
  rewrite <- (firstn_skipn 81 data) in HU.
  rewrite Unmarshal_prefix in HU by (unfold len; lia).
  rewrite <- (firstn_skipn 81 data').
  rewrite Unmarshal_prefix by (unfold len; rewrite ?length_firstn; lia).
  rewrite Hsame.
  assert (81 <= len (firstn 81 data)) as H81 by (unfold len; lia).
  assert (byte.unsigned (nth 80 (firstn 81 data) Byte.x00) < 32) as Hok'.
  { rewrite <- (firstn_skipn 81 data) in Hok.
    rewrite app_nth1 in Hok by lia. exact Hok. }
  rewrite Unmarshal_closed in HU |- * by assumption.
  rewrite copy_long in HU |- * by lia.
  cbn [fst] in HU |- *. rewrite Hbl1 in HU. rewrite Hbl2. exact HU.
Qed.

Lemma import_reads_81_bytes_witness :
  UnmarshalBinary (repeat Byte.x01 81 ++ [Byte.xff]) (New 3)
  = Some (None, Hash256 (repeat Byte.x01 32)
                        (Arr4 0x0101010101010101 0x0101010101010101
                              0x0101010101010101 0x0101010101010101)
                        0x0101010101010101 0x0101010101010101 1).
Proof.
  apply (import_reads_81_bytes (repeat Byte.x01 81) _ (New 0) (New 3)).
  - apply reach_New. unfold in64. lia.
  - apply reach_New. unfold in64. lia.
  - vm_compute. reflexivity.
  - reflexivity.
Defined.

End BlockedMore.

(** * The mixing core loses nothing *)

Lemma in64_high x j : in64 x -> 64 <= j -> Z.testbit x j = false.
Proof.
  intros H Hj. rewrite <- (Z.mod_small x (2 ^ 64)) by exact H.
  apply Z.mod_pow2_bits_high. lia.
Qed.

Lemma land63 k : 0 <= k < 64 -> Z.land k 63 = k.
Proof.
  intros H. change 63 with (Z.ones 6). rewrite Z.land_ones by lia.
  apply Z.mod_small. change (2 ^ 6) with 64. lia.
Qed.

Lemma RotateLeft64_bit x k i :
  in64 x -> 0 <= k < 64 -> 0 <= i ->
  Z.testbit (RotateLeft64 x k) i =
  if i <? 64
  then (if k <=? i then Z.testbit x (i - k) else Z.testbit x (i + 64 - k))
  else false.
Proof.
  intros Hx Hk Hi. unfold RotateLeft64, shl64, u64. rewrite land63 by exact Hk.
  rewrite Z.lor_spec, Z.shiftr_spec by lia.
  destruct (Z.ltb_spec i 64) as [Hlt|Hge].
  - rewrite Z.mod_pow2_bits_low by lia. rewrite Z.shiftl_spec by lia.
    destruct (Z.leb_spec k i) as [Hki|Hki].
    + rewrite (in64_high x (i + (64 - k))) by (assumption || lia).
      apply orb_false_r.
    + rewrite (Z.testbit_neg_r x (i - k)) by lia. cbn [orb].
      f_equal. lia.
  - rewrite Z.mod_pow2_bits_high by lia.
    rewrite (in64_high x) by (assumption || lia). reflexivity.
Qed.

(** Rotating left by [k] and then by [64 - k] is the identity on 64 bits. *)
Lemma RotateLeft64_back x k :
  in64 x -> 0 < k < 64 -> RotateLeft64 (RotateLeft64 x k) (64 - k) = x.
Proof.
  intros Hx Hk. apply Z.bits_inj'. intros i Hi.
  rewrite RotateLeft64_bit by (auto with in64 || lia).
  destruct (Z.ltb_spec i 64) as [Hlt|Hge].
  - destruct (Z.leb_spec (64 - k) i) as [Hki|Hki];
      rewrite RotateLeft64_bit by (assumption || lia).
    + destruct (Z.ltb_spec (i - (64 - k)) 64); [ | lia ].
      destruct (Z.leb_spec k (i - (64 - k))); [ lia | ]. f_equal. lia.
    + destruct (Z.ltb_spec (i + 64 - (64 - k)) 64); [ | lia ].
      destruct (Z.leb_spec k (i + 64 - (64 - k))); [ | lia ]. f_equal. lia.
  - symmetry. apply in64_high; assumption.
Qed.

Lemma sub64_add64 x y : in64 x -> sub64 (add64 x y) y = x.
Proof.
  intros H. unfold sub64, add64, u64. rewrite Zminus_mod_idemp_l.
  replace (x + y - y) with x by lia. apply Z.mod_small, H.
Qed.

Lemma sub64_u64_l x y : sub64 (u64 x) y = sub64 x y.
Proof. unfold sub64, u64. apply Zminus_mod_idemp_l. Qed.

Lemma sub64_add64_l x y : in64 y -> sub64 (add64 x y) x = y.
Proof.
  intros H. unfold sub64, add64, u64. rewrite Zminus_mod_idemp_l.
  replace (x + y - x) with y by lia. apply Z.mod_small, H.
Qed.

Lemma lxor_cancel x y : Z.lxor (Z.lxor x y) x = y.
Proof.
  rewrite (Z.lxor_comm x y), Z.lxor_assoc, Z.lxor_nilpotent.
  apply Z.lxor_0_r.
Qed.

(** [unmix] undoes [mix] on every state of 64-bit words. *)
Lemma unmix_mix extra64 S B : in64x4 S -> unmix extra64 (mix extra64 S B) B = S.
Proof.
  destruct S as [S0 S1 S2 S3], B as [B0 B1 B2 B3].
  unfold in64x4; cbn [idx e0 e1 e2 e3]. intros (H0 & H1 & H2 & H3).
  unfold mix, unmix.
  set (a0 := add64 S0 (add64 S1 B3)).
  set (a1 := match extra64 with
             | None => add64 a0 (RotateLeft64 S1 14)
             | Some x => add64 (add64 a0 (RotateLeft64 S1 14)) x
             end).
  set (a2 := add64 S2 (add64 S3 B2)).
  set (a3 := add64 a2 (RotateLeft64 S3 23)).
  assert (in64 a0) as Ha0 by apply add64_in64.
  assert (in64 a1) as Ha1 by (subst a1; destruct extra64; apply add64_in64).
  assert (in64 a2) as Ha2 by apply add64_in64.
  assert (in64 a3) as Ha3 by apply add64_in64.
  rewrite !lxor_cancel.
  change 24 with (64 - 40). rewrite RotateLeft64_back by (assumption || lia).
  change 48 with (64 - 16). rewrite RotateLeft64_back by (assumption || lia).
  rewrite !sub64_add64 by assumption.
  assert (sub64 a3 a2 = RotateLeft64 S3 23) as ->
    by (apply sub64_add64_l; auto with in64).
  change 41 with (64 - 23). rewrite RotateLeft64_back by (assumption || lia).
  unfold a2 at 1. rewrite sub64_add64 by exact H2.
  assert (match extra64 with
          | None => sub64 a1 a0
          | Some x => sub64 (sub64 a1 x) a0
          end = RotateLeft64 S1 14) as ->.
  { subst a1. destruct extra64 as [x|].
    - unfold add64 at 1. rewrite sub64_u64_l.
      unfold sub64 at 2. replace (add64 a0 (RotateLeft64 S1 14) + x - x)
        with (add64 a0 (RotateLeft64 S1 14)) by lia.
      rewrite sub64_u64_l. apply sub64_add64_l. auto with in64.
    - apply sub64_add64_l. auto with in64. }
  change 50 with (64 - 14). rewrite RotateLeft64_back by (assumption || lia).
  unfold a0. rewrite sub64_add64 by exact H0. reflexivity.
Qed.

Lemma mix_injective extra64 B S S' :
  in64x4 S -> in64x4 S' -> mix extra64 S B = mix extra64 S' B -> S = S'.
Proof.
  intros H H' E. rewrite <- (unmix_mix extra64 S B H), E.
  apply unmix_mix, H'.
Qed.

Lemma finalize_injective x B S S' :
  in64x4 S -> in64x4 S' -> finalize x B S = finalize x B S' -> S = S'.
Proof.
  unfold finalize. cbn [Nat.iter]. intros H H' E.
  do 5 (apply mix_injective in E; [ | apply mix_in64x4 | apply mix_in64x4 ]).
  apply mix_injective in E; assumption.
Qed.

Lemma bytes_injective a a' : in64x4 a -> in64x4 a' -> bytes a = bytes a' -> a = a'.
Proof.
  intros H H' E. rewrite <- (words_bytes a H), E. apply words_bytes, H'.
Qed.

Lemma Reset_equivalence_witness :
  Cached.seed (Cached.Reset (Cached.New 5)) = Cached.seed (Cached.New 5) /\
  Cached.s (Cached.Reset (Cached.New 5)) = Arr4 0 0 0 (Cached.seed (Cached.New 5)) /\
  Cached.b (Cached.Reset (Cached.New 5)) = zero4 /\
  Cached.total (Cached.Reset (Cached.New 5)) = 0 /\
  Cached.n (Cached.Reset (Cached.New 5)) = 0 /\
  Cached.digest_of (Cached.Reset (Cached.New 5)) [[Byte.x01]; [Byte.x02]]
  = Cached.digest (Cached.seed (Cached.New 5)) [[Byte.x01]; [Byte.x02]].
Proof.
  apply (CachedProofs.Reset_equivalence (Cached.New 5) [[Byte.x01]; [Byte.x02]]).
  apply Cached.reach_New. unfold in64. lia.
Defined.

(** X12. Absorbing a block loses nothing: [write32] maps distinct
    accumulators to distinct accumulators, in both listings (each of its
    eight steps can be undone). *)
Theorem absorbing_loses_nothing :
  (forall buf h1 h2 g1 g2,
     in64x4 (Cached.s h1) -> in64x4 (Cached.s h2) -> (32 <= length buf)%nat ->
     Cached.write32 buf h1 = Some g1 -> Cached.write32 buf h2 = Some g2 ->
     Cached.s g1 = Cached.s g2 -> Cached.s h1 = Cached.s h2) /\
  (forall buf h1 h2 g1 g2,
     in64x4 (Blocked.s h1) -> in64x4 (Blocked.s h2) -> (32 <= length buf)%nat ->
     Blocked.write32 buf h1 = Some g1 -> Blocked.write32 buf h2 = Some g2 ->
     Blocked.s g1 = Blocked.s g2 -> Blocked.s h1 = Blocked.s h2).
Proof.
  split; intros buf h1 h2 g1 g2 H1 H2 Hlen W1 W2 E.
  - rewrite CachedProofs.write32_absorb in W1, W2 by exact Hlen.
    injection W1 as <-. injection W2 as <-.
    destruct h1, h2. unfold Cached.absorb in E. cbn in E, H1, H2 |- *.
    apply (mix_injective None (words buf)); assumption.
  - rewrite BlockedProofs.write32_absorb_blk in W1, W2 by exact Hlen.
    injection W1 as <-. injection W2 as <-.
    destruct h1, h2. unfold Blocked.absorb in E. cbn in E, H1, H2 |- *.
    apply (mix_injective None (words buf)); assumption.
Qed.

Lemma absorbing_loses_nothing_witness :
  Cached.s (Cached.New 1) = Cached.s (Cached.New 1) /\
  Blocked.s (Blocked.New 1) = Blocked.s (Blocked.New 1).
Proof.
  destruct absorbing_loses_nothing as [HC HB].
  split.
  - refine (HC (repeat Byte.x07 32) (Cached.New 1) (Cached.New 1) _ _ _ _ _ eq_refl eq_refl eq_refl).
    + unfold in64x4, in64; cbn; lia.
    + unfold in64x4, in64; cbn; lia.
    + cbn; lia.
  - refine (HB (repeat Byte.x07 32) (Blocked.New 1) (Blocked.New 1) _ _ _ _ _ eq_refl eq_refl eq_refl).
    + unfold in64x4, in64; cbn; lia.
    + unfold in64x4, in64; cbn; lia.
    + cbn; lia.
Defined.

(** X13. The digest loses nothing of the accumulator: two reachable engines
    with the same byte count and the same final block (the pending bytes over
    the cached block) return the same [Sum] only if their accumulators [s]
    are equal, in both listings. *)
Theorem digest_determines_accumulator :
  (forall h1 h2 d,
     Cached.reachable h1 -> Cached.reachable h2 ->
     Cached.total h1 = Cached.total h2 -> Cached.virtual h1 = Cached.virtual h2 ->
     Cached.Sum [] h1 = Some (d, h1) -> Cached.Sum [] h2 = Some (d, h2) ->
     Cached.s h1 = Cached.s h2) /\
  (forall h1 h2 d,
     Blocked.reachable h1 -> Blocked.reachable h2 ->
     Blocked.total h1 = Blocked.total h2 -> Blocked.block h1 = Blocked.block h2 ->
     Blocked.Sum [] h1 = Some (d, h1) -> Blocked.Sum [] h2 = Some (d, h2) ->
     Blocked.s h1 = Blocked.s h2).
Proof.
  split; intros h1 h2 d Hr1 Hr2 Ht Hv S1 S2.
  - pose proof (CachedProofs.reachable_wf h1 Hr1) as Hwf1.
    pose proof (CachedProofs.reachable_wf h2 Hr2) as Hwf2.
    rewrite CachedProofs.Sum_closed in S1, S2 by assumption.
    injection S1 as S1. injection S2 as S2. cbn [app] in S1, S2.
    rewrite <- Ht, <- Hv, <- S1 in S2.
    apply bytes_injective in S2; try apply finalize_in64x4.
    apply finalize_injective in S2; [ symmetry; exact S2 | apply Hwf2 | apply Hwf1 ].
  - pose proof (BlockedProofs.reachable_wf_blk h1 Hr1) as Hwf1.
    pose proof (BlockedProofs.reachable_wf_blk h2 Hr2) as Hwf2.
    rewrite BlockedProofs.Sum_closed_blk in S1, S2 by assumption.
    injection S1 as S1. injection S2 as S2. cbn [app] in S1, S2.
    rewrite <- Ht, <- Hv, <- S1 in S2.
    apply bytes_injective in S2; try apply finalize_in64x4.
    apply finalize_injective in S2; [ symmetry; exact S2 | apply Hwf2 | apply Hwf1 ].
Qed.

Lemma digest_determines_accumulator_witness :
  Cached.s (Cached.New 1) = Cached.s (Cached.New 1) /\
  Blocked.s (Blocked.New 1) = Blocked.s (Blocked.New 1).
Proof.
  destruct digest_determines_accumulator as [HC HB].
  assert (in64 1) as H1 by (unfold in64; lia).
  split.
  - pose proof (CachedProofs.Sum_closed [] (Cached.New 1)
                  (CachedProofs.wf_New 1 H1)) as E.
    exact (HC _ _ _ (Cached.reach_New 1 H1) (Cached.reach_New 1 H1)
              eq_refl eq_refl E E).
  - pose proof (BlockedProofs.Sum_closed_blk [] (Blocked.New 1)
                  (BlockedProofs.wf_New_blk 1 H1)) as E.
    exact (HB _ _ _ (Blocked.reach_New 1 H1) (Blocked.reach_New 1 H1)
              eq_refl eq_refl E E).
Defined.
